(** * ultra_pro_rescuenet: Wi-Fi Direct connection manager patches

    The repository's sources are three Python scripts that rewrite
    [ConnectionManager.kt] in place.  Each script carries the Kotlin
    text it installs: the connect-retry block, the group-info retry
    block, the client address resolver with its MAC-free ARP lookup and
    the batched subnet scan.

    This development embeds both layers:
    - [Text]    strings as sequences of code points, with the string
                operations the scripts and the Kotlin snippets use;
    - [Kotlin]  the behaviour of the installed Kotlin blocks, as
                programs in a small trace monad over the platform's
                answers (ARP file reads, reachability probes, listener
                outcomes);
    - [Patch]   the three scripts as programs over the target file. *)

From Stdlib Require Import ZArith NArith List String Ascii Bool Lia.
From Stdlib Require Import DecimalString Permutation.
Import ListNotations.

Local Open Scope Z_scope.

(* ================================================================= *)
(** ** Text *)
(* ================================================================= *)

Module Text.

(** A character is a code point; a Python [str] and a Kotlin [String]
    are sequences of them. *)
Definition char := N.
Definition text := list char.

(** String literals of the sources. *)
Definition lit (s : string) : text := map N_of_ascii (list_ascii_of_string s).

Fixpoint text_eqb (a b : text) : bool :=
  match a, b with
  | [], [] => true
  | x :: a', y :: b' => N.eqb x y && text_eqb a' b'
  | _, _ => false
  end.

(** [s.startswith(p)] / [s.startsWith(p)] *)
Fixpoint starts_with (p s : text) : bool :=
  match p, s with
  | [], _ => true
  | x :: p', y :: s' => N.eqb x y && starts_with p' s'
  | _ :: _, [] => false
  end.

(** [p in s] *)
Fixpoint contains (p s : text) : bool :=
  starts_with p s ||
  match s with
  | [] => false
  | _ :: s' => contains p s'
  end.

(** Decimal rendering of an integer: Kotlin's ["$i"], Python's [f"{i}"]. *)
Definition dec (z : Z) : text := lit (NilZero.string_of_int (Z.to_int z)).

Definition LF : char := 10%N.
Definition CR : char := 13%N.

End Text.

Import Text.

(* ================================================================= *)
(** ** The Kotlin blocks the scripts install *)
(* ================================================================= *)

Module Kotlin.

(** *** Observable effects *)

Inductive Level := LogD | LogW | LogE.

(** What a [scope.launch] body goes on to call. *)
Inductive Task :=
| InitiateConnection (deviceAddress : text) (connectAttempt : Z)
| ResolveClientIpFromGroup (originalDeviceAddress : text) (attempt : Z).

Inductive Event :=
| Log (lvl : Level) (msg : text)
| Delay (ms : Z)                          (* delay(ms) *)
| ResolveIpFromArp (mac : text)           (* resolveIpFromArp(mac) *)
| ReadArp                                 (* File("/proc/net/arp").readText() *)
| IsReachable (ip : text) (timeoutMs : Z) (* addr.isReachable(timeoutMs) *)
| DiscoverPeers                           (* manager.discoverPeers(channel, l) *)
| RemoveGroup                             (* manager.removeGroup(channel, l) *)
| Launch (delayMs : Z) (t : Task)         (* scope.launch { delay(d); t } *)
| OnConnected (ip : text)                 (* the caller's onConnected *)
| OnFailure (msg : text).                 (* the caller's onFailure *)

(** Outcome the platform reports to a [WifiP2pManager.ActionListener]. *)
Inductive ActionResult := Success | Failure (code : Z).

(** *** The trace monad

    A block runs against a state that counts the reads of the ARP file
    made so far (the file changes between reads) and records the
    effects in program order. *)

Record St := mkSt { reads : nat; trace : list Event }.

Definition M (A : Type) := St -> A * St.

Definition ret {A} (a : A) : M A := fun s => (a, s).
Definition bind {A B} (m : M A) (k : A -> M B) : M B :=
  fun s => let (a, s') := m s in k a s'.
Definition emit (e : Event) : M unit :=
  fun s => (tt, mkSt (reads s) (trace s ++ [e])).

Declare Scope kt_scope.
Delimit Scope kt_scope with kt.
Notation "x <- m ;; k" := (bind m (fun x => k))
  (at level 100, m at next level, right associativity) : kt_scope.
Notation "m ;; k" := (bind m (fun _ => k))
  (at level 100, right associativity) : kt_scope.
Local Open Scope kt_scope.

Definition init : St := mkSt 0 [].
Definition run {A} (m : M A) : A * list Event :=
  let (a, s) := m init in (a, trace s).

(** *** Kotlin ranges *)

(** [lo..hi] *)
Definition range (lo hi : Z) : list Z :=
  map (fun k => lo + Z.of_nat k) (seq 0 (Z.to_nat (hi - lo + 1))).

(** [lo..hi step st], for [st > 0] *)
Definition range_step (lo hi st : Z) : list Z :=
  if hi <? lo then []
  else map (fun k => lo + st * Z.of_nat k) (seq 0 (Z.to_nat ((hi - lo) / st + 1))).

(** *** Coroutines started together

    [async { .. }] hands a coroutine to the dispatcher
    ([Dispatchers.IO]) and returns at once; the bodies of the
    coroutines of one batch then run concurrently.  [schedule l] is
    the order in which the dispatcher happens to carry out the bodies
    of the coroutines started for [l]; the code fixes none. *)

Class Dispatcher := schedule : list Z -> list Z.

(** A dispatcher carries out every coroutine it was given, once. *)
Definition fair (dispatcher : Dispatcher) : Prop :=
  forall l, Permutation (schedule l) l.

(** *** discoverP2pClientIp (fix_go_ip_v2.py, new_scan) *)

Section SubnetScan.

Context {dispatcher : Dispatcher}.

(** [InetAddress.getByName(ip).isReachable(timeout)]: [None] when
    either call throws. *)
Variable isReachable : text -> Z -> option bool.

Definition batchSize : Z := 25.

Definition batchEnd (batchStart : Z) : Z :=
  Z.min (batchStart + batchSize - 1) 254.

(** ["192.168.49.$i"] *)
Definition candidateIp (i : Z) : text := lit "192.168.49." ++ dec i.

(** What one [async { ... }] body returns. *)
Definition probe_result (i : Z) : option text :=
  match isReachable (candidateIp i) 500 with
  | Some true => Some (candidateIp i)
  | Some false => None
  | None => None                           (* catch (e: Exception) *)
  end.

(** One [async { ... }] body. *)
Definition probe (i : Z) : M (option text) :=
  emit (IsReachable (candidateIp i) 500) ;;
  ret (probe_result i).

(** The bodies of the coroutines of one batch, in the order the
    dispatcher carries them out. *)
Fixpoint run_all (order : list Z) : M unit :=
  match order with
  | [] => ret tt
  | i :: rest => probe i ;; run_all rest
  end.

(** [(batchStart..batchEnd).map { async {..} }.mapNotNull { it.await() }]:
    the coroutines of the whole batch are started, their bodies run
    concurrently, and only then are the results collected, in the
    order of the addresses. *)
Definition probe_all (addrs : list Z) : M (list text) :=
  run_all (schedule addrs) ;;
  ret (flat_map (fun i => match probe_result i with
                          | Some ip => [ip]
                          | None => []
                          end) addrs).

(** The [for (batchStart in 2..254 step batchSize)] loop. *)
Fixpoint scan_batches (starts : list Z) : M (option text) :=
  match starts with
  | [] =>
      emit (Log LogW (lit "No P2P client found in subnet scan (2-254)")) ;;
      ret None
  | batchStart :: rest =>
      results <- probe_all (range batchStart (batchEnd batchStart)) ;;
      match results with
      | first :: _ =>
          emit (Log LogD (lit "Found reachable P2P client at " ++ first
                          ++ lit " (parallel subnet scan)")) ;;
          ret (Some first)
      | [] => scan_batches rest
      end
  end.

Definition discoverP2pClientIp : M (option text) :=
  emit (Log LogD (lit "Starting parallel subnet scan (192.168.49.2-254)...")) ;;
  scan_batches (range_step 2 254 batchSize).

End SubnetScan.

(** *** resolveAnyP2pClientFromArp (fix_go_ip_v2.py, new_with_fallback) *)

(** [Char.isWhitespace()], which [trim()] uses. *)
Definition isWhitespace (c : char) : bool :=
  ((9 <=? c) && (c <=? 13) || (28 <=? c) && (c <=? 32) || (c =? 160)
   || (c =? 5760) || (8192 <=? c) && (c <=? 8202) || (c =? 8232)
   || (c =? 8233) || (c =? 8239) || (c =? 8287) || (c =? 12288))%N.

(** The regex class [\s]: space, tab, LF, VT, FF, CR. *)
Definition is_regex_space (c : char) : bool :=
  ((c =? 32) || (9 <=? c) && (c <=? 13))%N.

Fixpoint drop_while (f : char -> bool) (s : text) : text :=
  match s with
  | [] => []
  | c :: s' => if f c then drop_while f s' else s
  end.

(** [s.trim()] *)
Definition trim (s : text) : text :=
  rev (drop_while isWhitespace (rev (drop_while isWhitespace s))).

(** [s.lines()]: split at CRLF, LF or CR. *)
Fixpoint lines (s : text) : list text :=
  match s with
  | [] => [[]]
  | c :: s' =>
      if (c =? CR)%N then
        match s' with
        | d :: s'' => if (d =? LF)%N then [] :: lines s'' else [] :: lines s'
        | [] => [] :: lines s'
        end
      else if (c =? LF)%N then [] :: lines s'
      else match lines s' with
           | l :: ls => (c :: l) :: ls
           | [] => [[c]]
           end
  end.

(** [s.split("\\s+".toRegex())]: the pieces around every maximal run
    of [\s]; a run at either end leaves an empty piece there. *)
Fixpoint split_ws_from (in_run : bool) (s : text) : list text :=
  match s with
  | [] => [[]]
  | c :: s' =>
      if is_regex_space c then
        if in_run then split_ws_from true s' else [] :: split_ws_from true s'
      else match split_ws_from false s' with
           | p :: ps => (c :: p) :: ps
           | [] => [[c]]
           end
  end.

Definition split_ws (s : text) : list text := split_ws_from false s.

Definition subnet_prefix : text := lit "192.168.49.".
Definition own_address : text := lit "192.168.49.1".

(** The [for (line in arpTable.lines())] loop, with its [return ip]. *)
Fixpoint first_p2p_client (ls : list text) : option text :=
  match ls with
  | [] => None
  | line :: rest =>
      let parts := split_ws (trim line) in
      match parts with
      | [] => first_p2p_client rest                    (* ?: continue *)
      | ip :: _ =>
          if starts_with subnet_prefix ip && negb (text_eqb ip own_address)
          then Some ip
          else first_p2p_client rest
      end
  end.

(** What one [readText()] of /proc/net/arp gives. *)
Inductive ReadResult :=
| ReadOk (arpTable : text)
| ReadThrows (message : text).

Section Resolver.

(** The platform. [arp_file k] answers the k-th read of the ARP file
    in a run; [resolveIpFromArp] is the MAC-keyed lookup already
    present in ConnectionManager.kt, which the scripts leave alone. *)
Context {dispatcher : Dispatcher}.
Variable arp_file : nat -> ReadResult.
Variable resolveIpFromArp : text -> option text.
Variable isReachable : text -> Z -> option bool.

(** Constants of ConnectionManager.kt whose values the scripts do not
    state. *)
Variable DHCP_SETTLE_DELAY_MS : Z.

Definition readText : M ReadResult :=
  fun s => (arp_file (reads s), mkSt (S (reads s)) (trace s ++ [ReadArp])).

(** Log messages are recorded without their leading pictograph. *)
Definition resolveAnyP2pClientFromArp : M (option text) :=
  r <- readText ;;
  match r with
  | ReadOk arpTable =>
      emit (Log LogD (lit "ARP table:" ++ [LF] ++ arpTable)) ;;
      match first_p2p_client (lines arpTable) with
      | Some ip =>
          emit (Log LogD (lit "Found P2P client IP from ARP (MAC-free): " ++ ip)) ;;
          ret (Some ip)
      | None =>
          emit (Log LogW (lit "No P2P client found in ARP table")) ;;
          ret None
      end
  | ReadThrows message =>                         (* catch (e: Exception) *)
      emit (Log LogE (lit "Error reading ARP table: " ++ message)) ;;
      ret None
  end.

(** [for (retryArp in 1..3) { ...; if (clientIp != null) break }] *)
Fixpoint arp_retry (attempts : list Z) : M (option text) :=
  match attempts with
  | [] => ret None
  | retryArp :: rest =>
      emit (Log LogW (lit "ARP miss, retrying in 2s (attempt "
                      ++ dec retryArp ++ lit "/3)...")) ;;
      emit (Delay 2000) ;;
      clientIp <- resolveAnyP2pClientFromArp ;;
      match clientIp with
      | Some _ => ret clientIp
      | None => arp_retry rest
      end
  end.

(** The [scope.launch] block of resolveClientIpFromGroup
    (fix_go_ip_v2.py new_launch_block, fix_go_ip_v3.py
    new_second_scope), up to the final test on [clientIp]. *)
Definition resolve_stages (deviceAddress : text) : M (option text) :=
  emit (Log LogD (lit "Waiting " ++ dec DHCP_SETTLE_DELAY_MS
                  ++ lit "ms for client DHCP to settle...")) ;;
  emit (Delay DHCP_SETTLE_DELAY_MS) ;;
  (* Step 1 *)
  emit (ResolveIpFromArp deviceAddress) ;;
  clientIp <- ret (resolveIpFromArp deviceAddress) ;;
  (* Step 2 *)
  clientIp <- match clientIp with
              | None =>
                  emit (Log LogD (lit "MAC-based ARP failed, trying MAC-free ARP...")) ;;
                  resolveAnyP2pClientFromArp
              | Some _ => ret clientIp
              end ;;
  (* Step 3 *)
  clientIp <- match clientIp with
              | None => arp_retry (range 1 3)
              | Some _ => ret clientIp
              end ;;
  (* Step 4 *)
  clientIp <- match clientIp with
              | None => discoverP2pClientIp isReachable
              | Some _ => ret clientIp
              end ;;
  ret clientIp.

Definition rule : text := repeat 9552%N 35.

(** The whole block. [removeGroupResult] is what the platform
    reports to the listener handed to [removeGroup]. *)
Definition resolve_block (deviceAddress : text)
    (removeGroupResult : ActionResult) : M unit :=
  clientIp <- resolve_stages deviceAddress ;;
  match clientIp with
  | Some ip =>
      emit (Log LogD rule) ;;
      emit (Log LogD (lit "CONNECTED (GO mode) - Client IP: " ++ ip)) ;;
      emit (Log LogD rule) ;;
      emit (OnConnected ip)
  | None =>
      emit (Log LogE (lit "Could not resolve client IP from ARP table or subnet scan")) ;;
      emit RemoveGroup ;;
      match removeGroupResult with
      | Success => emit (OnFailure (lit "Could not resolve client IP"))
      | Failure code =>
          emit (OnFailure (lit "Could not resolve client IP, cleanup failed"))
      end
  end.

End Resolver.

(** *** Kotlin [Int] arithmetic *)

Definition wrap32 (z : Z) : Z := (z + 2 ^ 31) mod 2 ^ 32 - 2 ^ 31.
Definition int_add (a b : Z) : Z := wrap32 (a + b).
Definition Int_MAX_VALUE : Z := 2 ^ 31 - 1.

(** *** The connect-retry block (fix_connection_manager.py) *)

(** [old_const] and [new_const] *)
Definition CONNECT_RETRY_DELAY_MS : Z := 2000.
Definition PEER_REDISCOVERY_DELAY_MS : Z := 3500.

Section ConnectRetry.

(** Of ConnectionManager.kt, not stated by the scripts. *)
Variable MAX_CONNECT_RETRIES : Z.
Variable getErrorMessage : Z -> text.

(** The listener handed to [discoverPeers]. *)
Definition discoverPeers_listener (r : ActionResult) : M unit :=
  match r with
  | Success => emit (Log LogD (lit "Peer discovery refresh triggered"))
  | Failure code2 =>
      emit (Log LogW (lit "Peer discovery refresh failed: " ++ getErrorMessage code2))
  end.

(** [new_retry_lines].  [discoverPeers] and [scope.launch] both return
    at once; the platform calls the listener back afterwards with
    [discoverResult]. *)
Definition retry_block (deviceAddress errorMsg : text) (connectAttempt : Z)
    (discoverResult : ActionResult) : M unit :=
  emit (Log LogW (lit "connect() returned " ++ errorMsg ++ lit " (attempt "
                  ++ dec connectAttempt ++ lit "/" ++ dec MAX_CONNECT_RETRIES
                  ++ lit ")")) ;;
  emit (Log LogD (lit "Refreshing peer discovery before retry...")) ;;
  emit DiscoverPeers ;;
  emit (Launch PEER_REDISCOVERY_DELAY_MS
          (InitiateConnection deviceAddress (int_add connectAttempt 1))) ;;
  discoverPeers_listener discoverResult.

Variable connectFailureMessage : Z -> text.

(** Modelled from the spec: the connect listener's [onFailure] of
    initiateConnection in ConnectionManager.kt, which tests the
    attempt counter around the retry block; the scripts replace only
    the block inside it.  "if attempt < MAX_CONNECT_RETRIES: trigger
    peer rediscovery, then schedule a retry; if attempt >=
    MAX_CONNECT_RETRIES: invoke onFailure(message) exactly once;
    terminal." *)
Definition onConnectError (deviceAddress : text) (code connectAttempt : Z)
    (discoverResult : ActionResult) : M unit :=
  if connectAttempt <? MAX_CONNECT_RETRIES
  then retry_block deviceAddress (getErrorMessage code) connectAttempt discoverResult
  else emit (OnFailure (connectFailureMessage code)).

End ConnectRetry.

(** *** The group-info retry block (fix_go_ip_v3.py) *)

Section GroupWatcher.

Context {dispatcher : Dispatcher}.
Variable arp_file : nat -> ReadResult.
Variable resolveIpFromArp : text -> option text.
Variable isReachable : text -> Z -> option bool.
Variable DHCP_SETTLE_DELAY_MS : Z.
Variable CONNECTION_RETRY_DELAY_MS : Z.

(** [new_first_scope] *)
Definition group_retry_block (originalDeviceAddress : text) (attempt : Z) : M unit :=
  emit (Launch CONNECTION_RETRY_DELAY_MS
          (ResolveClientIpFromGroup originalDeviceAddress (int_add attempt 1))).

Variable clientNotFoundMessage : text.

(** Modelled from the spec: the body of resolveClientIpFromGroup in
    ConnectionManager.kt around the two [scope.launch] blocks the
    scripts install.  "If unavailable (null/pending), retries after
    CONNECTION_RETRY_DELAY_MS, re-invoking itself with attempt+1.
    When group info is available, locates the target client by
    matching device address against the requested peer; absence of a
    match is immediate failure (ClientNotFound), not retried."
    [group] is the answer to [requestGroupInfo]: the device
    addresses of the group's clients, or [None]. *)
Definition resolveClientIpFromGroup (group : option (list text))
    (originalDeviceAddress : text) (attempt : Z)
    (removeGroupResult : ActionResult) : M unit :=
  match group with
  | None => group_retry_block originalDeviceAddress attempt
  | Some clients =>
      match find (text_eqb originalDeviceAddress) clients with
      | Some targetClient =>
          resolve_block arp_file resolveIpFromArp isReachable
            DHCP_SETTLE_DELAY_MS targetClient removeGroupResult
      | None => emit (OnFailure clientNotFoundMessage)
      end
  end.

End GroupWatcher.

(** *** Reading traces *)

Definition launches (t : list Event) : list (Z * Task) :=
  flat_map (fun e => match e with Launch d k => [(d, k)] | _ => [] end) t.

Definition failures (t : list Event) : list text :=
  flat_map (fun e => match e with OnFailure m => [m] | _ => [] end) t.

Definition connections (t : list Event) : list text :=
  flat_map (fun e => match e with OnConnected ip => [ip] | _ => [] end) t.

Definition probes (t : list Event) : list (text * Z) :=
  flat_map (fun e => match e with IsReachable ip ms => [(ip, ms)] | _ => [] end) t.

Definition delays (t : list Event) : list Z :=
  flat_map (fun e => match e with Delay ms => [ms] | _ => [] end) t.

Definition is_log (e : Event) : bool :=
  match e with Log _ _ => true | _ => false end.

Definition is_discover (e : Event) : bool :=
  match e with DiscoverPeers => true | _ => false end.

Definition is_remove_group (e : Event) : bool :=
  match e with RemoveGroup => true | _ => false end.

(** The effects of a trace, its log lines left out. *)
Definition effects (t : list Event) : list Event :=
  filter (fun e => negb (is_log e)) t.



End Kotlin.

(* ================================================================= *)
(** ** The patch scripts *)
(* ================================================================= *)

Module Patch.

(** *** Python string and list operations *)

(** [s.replace(old, new)] for a non-empty [old]: leftmost occurrences,
    not overlapping.  [skip] counts the characters of a match still to
    be dropped. *)
Fixpoint replace_from (old new : text) (skip : nat) (s : text) : text :=
  match s with
  | [] => []
  | c :: s' =>
      match skip with
      | S k => replace_from old new k s'
      | O =>
          if starts_with old s
          then new ++ replace_from old new (List.length old - 1) s'
          else c :: replace_from old new 0 s'
      end
  end.

Definition replace (old new s : text) : text := replace_from old new 0 s.

(** [s.replace(old, new, 1)] *)
Fixpoint replace1 (old new s : text) : text :=
  match s with
  | [] => []
  | c :: s' =>
      if starts_with old s then new ++ skipn (List.length old) s
      else c :: replace1 old new s'
  end.

(** [s.count(old)] for a non-empty [old]. *)
Fixpoint count_from (old : text) (skip : nat) (s : text) : nat :=
  match s with
  | [] => 0
  | _ :: s' =>
      match skip with
      | S k => count_from old k s'
      | O =>
          if starts_with old s
          then S (count_from old (List.length old - 1) s')
          else count_from old 0 s'
      end
  end.

Definition count (old s : text) : nat := count_from old 0 s.

(** [s.split('\n')] *)
Fixpoint split_lf (s : text) : list text :=
  match s with
  | [] => [[]]
  | c :: s' =>
      if (c =? LF)%N then [] :: split_lf s'
      else match split_lf s' with
           | l :: ls => (c :: l) :: ls
           | [] => [[c]]
           end
  end.

(** ['\n'.join(lines)] *)
Fixpoint join_lf (ls : list text) : text :=
  match ls with
  | [] => []
  | [l] => l
  | l :: rest => l ++ LF :: join_lf rest
  end.

(** [c.isspace()], which [strip()] uses. *)
Definition isspace (c : char) : bool :=
  ((9 <=? c) && (c <=? 13) || (28 <=? c) && (c <=? 32) || (c =? 133)
   || (c =? 160) || (c =? 5760) || (8192 <=? c) && (c <=? 8202)
   || (c =? 8232) || (c =? 8233) || (c =? 8239) || (c =? 8287)
   || (c =? 12288))%N.

Fixpoint lstrip (s : text) : text :=
  match s with
  | [] => []
  | c :: s' => if isspace c then lstrip s' else s
  end.

(** [s.strip()] *)
Definition strip (s : text) : text := rev (lstrip (rev (lstrip s))).

(** [lines[a:b] = new] *)
Definition assign_slice (ls : list text) (a b : nat) (new : list text) : list text :=
  firstn a ls ++ new ++ skipn (Nat.max a b) ls.

(** First index [i] in [range(lo, hi)] whose line passes [test]; the
    loops of the scripts that [break] at the first hit. *)
Definition first_in_range (test : text -> bool) (ls : list text) (lo hi : nat)
    : option nat :=
  find (fun i => test (nth i ls [])) (seq lo (hi - lo)).

(** [for i, line in enumerate(lines): if test(line): ...; break] *)
Definition first_line (test : text -> bool) (ls : list text) : option nat :=
  first_in_range test ls 0 (List.length ls).

(** *** Brace matching *)

Definition open_brace : char := 123%N.
Definition close_brace : char := 125%N.

(** One pass of [for ch in lines[i]] in fix_go_ip_v2.py's first loop
    and in fix_go_ip_v3.py: [inl depth] when the line ends without the
    depth returning to zero at a closing brace, [inr tt] at the
    [break]. *)
Fixpoint braces_in_line (brace_depth : Z) (line : text) : Z + unit :=
  match line with
  | [] => inl brace_depth
  | ch :: rest =>
      if (ch =? open_brace)%N then braces_in_line (brace_depth + 1) rest
      else if (ch =? close_brace)%N then
        if brace_depth - 1 =? 0 then inr tt
        else braces_in_line (brace_depth - 1) rest
      else braces_in_line brace_depth rest
  end.

(** [for i in range(start, len(lines))] around it; [ls] is
    [lines[i:]]. *)
Fixpoint matching_brace (brace_depth : Z) (i : nat) (ls : list text) : option nat :=
  match ls with
  | [] => None
  | line :: rest =>
      match braces_in_line brace_depth line with
      | inr _ => Some i
      | inl d => matching_brace d (S i) rest
      end
  end.

Definition block_end (ls : list text) (start : nat) : option nat :=
  matching_brace 0 start (skipn start ls).

(** The variant with [found_first_brace] (fix_go_ip_v2.py, the scan of
    discoverP2pClientIp). *)
Fixpoint braces_in_line' (st : Z * bool) (line : text) : (Z * bool) + unit :=
  match line with
  | [] => inl st
  | ch :: rest =>
      let (brace_depth, found_first_brace) := st in
      if (ch =? open_brace)%N then braces_in_line' (brace_depth + 1, true) rest
      else if (ch =? close_brace)%N then
        if found_first_brace && (brace_depth - 1 =? 0) then inr tt
        else braces_in_line' (brace_depth - 1, found_first_brace) rest
      else braces_in_line' st rest
  end.

Fixpoint matching_brace' (st : Z * bool) (i : nat) (ls : list text) : option nat :=
  match ls with
  | [] => None
  | line :: rest =>
      match braces_in_line' st line with
      | inr _ => Some i
      | inl st' => matching_brace' st' (S i) rest
      end
  end.

Definition function_end (ls : list text) (start : nat) : option nat :=
  matching_brace' (0, false) start (skipn start ls).

(** *** Running a script

    A script runs against the target file and its standard output.
    [writes] counts the times the file has been opened for writing. *)

Inductive Disk :=
| Holds (content : text)            (* decodes as UTF-8 to [content] *)
| Unreadable (exception : text).    (* [open] or [decode] raises *)

Record Proc := mkProc { file : Disk; stdout : list text; writes : nat }.

(** How a run ends before its last statement. *)
Inductive Exit :=
| SysExit (code : Z)                (* sys.exit(code) *)
| Uncaught (exception : text).      (* traceback *)

Definition Script (A : Type) := Proc -> (A + Exit) * Proc.

Definition ret {A} (a : A) : Script A := fun p => (inl a, p).
Definition bind {A B} (m : Script A) (k : A -> Script B) : Script B :=
  fun p => match m p with
           | (inl a, p') => k a p'
           | (inr e, p') => (inr e, p')
           end.

Declare Scope py_scope.
Delimit Scope py_scope with py.
Notation "x <- m ;; k" := (bind m (fun x => k))
  (at level 100, m at next level, right associativity) : py_scope.
Notation "m ;; k" := (bind m (fun _ => k))
  (at level 100, right associativity) : py_scope.
Local Open Scope py_scope.

Definition print (line : text) : Script unit :=
  fun p => (inl tt, mkProc (file p) (stdout p ++ [line]) (writes p)).

Definition sys_exit {A} (code : Z) : Script A := fun p => (inr (SysExit code), p).
Definition raise {A} (exception : text) : Script A := fun p => (inr (Uncaught exception), p).

(** [open(filepath, 'rb').read().decode('utf-8')] *)
Definition read_file : Script text :=
  fun p => match file p with
           | Holds content => (inl content, p)
           | Unreadable exception => (inr (Uncaught exception), p)
           end.

(** [open(filepath, 'wb').write(content.encode('utf-8'))] *)
Definition write_file (content : text) : Script unit :=
  fun p => (inl tt, mkProc (Holds content) (stdout p) (S (writes p))).

(** The status the interpreter hands to the shell. *)
Definition exit_status {A} (r : A + Exit) : Z :=
  match r with
  | inl _ => 0
  | inr (SysExit code) => code
  | inr (Uncaught _) => 1
  end.

Definition nat_text (n : nat) : text := dec (Z.of_nat n).

(** [f"{idx}"] for an index that may be [None]. *)
Definition opt_text (o : option nat) : text :=
  match o with
  | Some n => nat_text n
  | None => lit "None"
  end.

Definition CRLF : text := [CR; LF].

(** [n + 1] where [n] may be [None]. *)
Definition plus_one (o : option nat) : Script nat :=
  match o with
  | Some n => ret (n + 1)%nat
  | None => raise (lit "TypeError")
  end.

Section Scripts.

(** The Kotlin text of the longer blocks the scripts install; what
    that text does when it runs is the subject of [Kotlin]. *)
Variable new_retry_lines : list text.
Variable new_launch_block : list text.
Variable new_with_fallback : text.
Variable new_scan : list text.
Variable new_second_scope : list text.

(** **** fix_connection_manager.py *)

Definition old_interp : text := lit "${'$'}{".
Definition new_interp : text := lit "${".
Definition old_const : text := lit "private const val CONNECT_RETRY_DELAY_MS = 2000L".
Definition new_const : text :=
  lit "private const val CONNECT_RETRY_DELAY_MS = 2000L" ++ [LF]
  ++ lit "        private const val PEER_REDISCOVERY_DELAY_MS = 3500L".

(** The search for [end_idx] below a known [start_idx]. *)
Definition retry_block_end (ls : list text) (start_idx : nat) : option nat :=
  match first_in_range (contains (lit "retrying anyway")) ls start_idx
          (Nat.min (start_idx + 30) (List.length ls)) with
  | Some i =>
      first_in_range (fun l => text_eqb (strip l) (lit "})")) ls (i + 1)
        (Nat.min (i + 5) (List.length ls))
  | None => None
  end.

Definition fix_connection_manager : Script unit :=
  content <- read_file ;;
  let content := replace CRLF [LF] content in
  (* Fix 1 *)
  let count1 := count old_interp content in
  let content := replace old_interp new_interp content in
  print (lit "Fix 1: Replaced " ++ nat_text count1
         ++ lit " string interpolation escapes") ;;
  (* Fix 2 *)
  content <- (if contains old_const content
              then print (lit "Fix 2: Added PEER_REDISCOVERY_DELAY_MS constant") ;;
                   ret (replace1 old_const new_const content)
              else print (lit "ERROR: Could not find CONNECT_RETRY_DELAY_MS constant!") ;;
                   sys_exit 1) ;;
  (* Fix 3 *)
  let lines := split_lf content in
  let start_idx := first_line (contains (lit "cleaning up before retry...")) lines in
  let end_idx := match start_idx with
                 | Some st => retry_block_end lines st
                 | None => None
                 end in
  match start_idx, end_idx with
  | Some st, Some en =>
      print (lit "Fix 3: Found retry block at lines " ++ nat_text (st + 1)
             ++ lit "-" ++ nat_text (en + 1)) ;;
      let lines := assign_slice lines st (en + 1) new_retry_lines in
      let content := join_lf lines in
      print (lit "Fix 3: Replaced retry cleanup logic (removeGroup -> discoverPeers)") ;;
      write_file content ;;
      print (LF :: lit "All fixes applied successfully!")
  | _, _ =>
      print (lit "ERROR: Could not find retry block. start=" ++ opt_text start_idx
             ++ lit ", end=" ++ opt_text end_idx) ;;
      sys_exit 1
  end.

(** **** fix_go_ip_v2.py *)

(** The first loop: [resolve_func_start] follows the last line seen
    that opens resolveClientIpFromGroup; the loop breaks at the
    first later line that is exactly [scope.launch {]. [ls] is
    [lines[i:]]. *)
Fixpoint find_scope_launch (resolve_func_start : option nat) (i : nat)
    (ls : list text) : option nat :=
  match ls with
  | [] => None
  | line :: rest =>
      let resolve_func_start :=
        if contains (lit "private fun resolveClientIpFromGroup(") line
        then Some i else resolve_func_start in
      match resolve_func_start with
      | Some r =>
          if text_eqb (strip line) (lit "scope.launch {") && (r <? i)%nat
          then Some i
          else find_scope_launch resolve_func_start (S i) rest
      | None => find_scope_launch resolve_func_start (S i) rest
      end
  end.

Definition old_marker : text :=
  lit "    private fun resolveIpFromArp(macAddress: String): String? {".

Definition fix_go_ip_v2 : Script unit :=
  content <- read_file ;;
  let content := replace CRLF [LF] content in
  let lines := split_lf content in
  scope_launch_line <-
    match find_scope_launch None 0 lines with
    | Some l => ret l
    | None =>
        print (lit "ERROR: Could not find scope.launch in resolveClientIpFromGroup!") ;;
        sys_exit 1
    end ;;
  scope_launch_end <-
    match block_end lines scope_launch_line with
    | Some l => ret l
    | None =>
        print (lit "ERROR: Could not find matching brace for scope.launch!") ;;
        sys_exit 1
    end ;;
  print (lit "Found scope.launch block at lines " ++ nat_text (scope_launch_line + 1)
         ++ lit "-" ++ nat_text (scope_launch_end + 1)) ;;
  let lines := assign_slice lines scope_launch_line (scope_launch_end + 1)
                 new_launch_block in
  let content := join_lf lines in
  print (lit "Fix 1: Replaced IP resolution block with MAC-free ARP + retries") ;;
  content <- (if contains old_marker content
              then print (lit "Fix 2: Added resolveAnyP2pClientFromArp() method") ;;
                   ret (replace1 old_marker new_with_fallback content)
              else print (lit "ERROR: Could not find resolveIpFromArp!") ;;
                   sys_exit 1) ;;
  let lines := split_lf content in
  let scan_start :=
    first_line (contains (lit "private suspend fun discoverP2pClientIp()")) lines in
  let scan_end := match scan_start with
                  | Some st => function_end lines st
                  | None => None
                  end in
  match scan_start, scan_end with
  | Some st, Some en =>
      print (lit "Found discoverP2pClientIp at lines " ++ nat_text (st + 1)
             ++ lit "-" ++ nat_text (en + 1)) ;;
      let lines := assign_slice lines st (en + 1) new_scan in
      let content := join_lf lines in
      print (lit "Fix 3: Replaced subnet scan with parallel version (2-254)") ;;
      write_file content ;;
      print (LF :: lit "All GO IP resolution fixes applied successfully!")
  | _, _ =>
      print (lit "ERROR: Could not find discoverP2pClientIp! start="
             ++ opt_text scan_start ++ lit " end=" ++ opt_text scan_end) ;;
      sys_exit 1
  end.

(** **** fix_go_ip_v3.py *)

Definition new_first_scope : list text :=
  [ lit "                    scope.launch {";
    lit "                        delay(CONNECTION_RETRY_DELAY_MS)";
    lit "                        resolveClientIpFromGroup(originalDeviceAddress, onConnected, onFailure, attempt + 1)";
    lit "                    }" ].

Definition fix_go_ip_v3 : Script unit :=
  content <- read_file ;;
  let content := replace CRLF [LF] content in
  let lines := split_lf content in
  print (lit "Total lines: " ++ nat_text (List.length lines)) ;;
  (* STEP 1 *)
  group_null_retry_line <-
    match first_line (contains (lit "Group info null, retrying")) lines with
    | Some l => ret l
    | None =>
        print (lit "ERROR: Could not find 'Group info null, retrying' line") ;;
        sys_exit 1
    end ;;
  print (lit "Found 'Group info null, retrying' at line "
         ++ nat_text (group_null_retry_line + 1)) ;;
  let first_scope_line := (group_null_retry_line + 1)%nat in
  let first_scope_end := block_end lines first_scope_line in
  first_scope_end1 <- plus_one first_scope_end ;;
  print (lit "First scope.launch block: lines " ++ nat_text (first_scope_line + 1)
         ++ lit " to " ++ nat_text first_scope_end1) ;;
  let lines := assign_slice lines first_scope_line first_scope_end1 new_first_scope in
  let content := join_lf lines in
  print (lit "Step 1: Restored first scope.launch to simple retry block") ;;
  (* STEP 2 *)
  let lines := split_lf content in
  target_client_line <-
    match first_line (contains (lit "val targetClient = clients.firstOrNull")) lines with
    | Some l => ret l
    | None =>
        print (lit "ERROR: Could not find 'val targetClient' line") ;;
        sys_exit 1
    end ;;
  print (lit "Found 'val targetClient' at line " ++ nat_text (target_client_line + 1)) ;;
  second_scope_line <-
    match first_in_range (contains (lit "scope.launch")) lines target_client_line
            (Nat.min (target_client_line + 10) (List.length lines)) with
    | Some l => ret l
    | None =>
        print (lit "ERROR: Could not find second scope.launch after targetClient") ;;
        sys_exit 1
    end ;;
  let second_scope_end := block_end lines second_scope_line in
  second_scope_end1 <- plus_one second_scope_end ;;
  print (lit "Second scope.launch block: lines " ++ nat_text (second_scope_line + 1)
         ++ lit " to " ++ nat_text second_scope_end1) ;;
  let lines := assign_slice lines second_scope_line second_scope_end1 new_second_scope in
  let content := join_lf lines in
  print (lit "Step 2: Replaced second scope.launch with MAC-free ARP resolution logic") ;;
  write_file content ;;
  print (LF :: lit "Done! File now has " ++ nat_text (List.length (split_lf content))
         ++ lit " lines") ;;
  print (lit "All fixes applied successfully!").

End Scripts.

(** A run from a fresh process. *)
Definition start (d : Disk) : Proc := mkProc d [] 0.

End Patch.

(* ================================================================= *)
(** ** Properties of the installed Kotlin blocks *)
(* ================================================================= *)

Import Kotlin.

(** *** The subnet scan *)

Section ScanFacts.

Context {dispatcher : Dispatcher}.
Variable isReachable : text -> Z -> option bool.

(** Host [i] answers its probe. *)
Definition answers (i : Z) : bool :=
  match isReachable (candidateIp i) 500 with
  | Some true => true
  | _ => false
  end.

Definition probe_event (i : Z) : Event := IsReachable (candidateIp i) 500.

Lemma run_all_run order s :
  run_all isReachable order s
  = (tt, mkSt (reads s) (trace s ++ map probe_event order)).
Proof.
  revert s. induction order as [|i rest IH]; intros s.
  - cbn. rewrite app_nil_r. now destruct s.
  - cbn [run_all]. unfold bind at 1. unfold probe at 1.
    unfold bind at 1, emit at 1, ret at 1. cbn [reads trace].
    rewrite IH. cbn [reads trace map]. now rewrite <- app_assoc.
Qed.

Lemma awaited_results addrs :
  flat_map (fun i => match probe_result isReachable i with
                     | Some ip => [ip]
                     | None => []
                     end) addrs
  = map candidateIp (filter answers addrs).
Proof.
  induction addrs as [|i rest IH]; [reflexivity|].
  cbn [flat_map filter]. unfold probe_result at 1, answers at 1.
  destruct (isReachable (candidateIp i) 500) as [[|]|]; cbn [app map];
    now rewrite IH.
Qed.

Lemma probe_all_run addrs s :
  probe_all isReachable addrs s
  = (map candidateIp (filter answers addrs),
     mkSt (reads s) (trace s ++ map probe_event (schedule addrs))).
Proof.
  unfold probe_all, bind. rewrite run_all_run. unfold ret.
  now rewrite awaited_results.
Qed.

Definition found_log (ip : text) : Event :=
  Log LogD (lit "Found reachable P2P client at " ++ ip ++ lit " (parallel subnet scan)").
Definition none_log : Event :=
  Log LogW (lit "No P2P client found in subnet scan (2-254)").

Definition hosts_of (batchStart : Z) : list Z := range batchStart (batchEnd batchStart).

(** The hosts of a batch in the order their probes are carried out. *)
Definition round (batchStart : Z) : list Z := schedule (hosts_of batchStart).

(** No batch answers: the loop runs through all of them. *)
Lemma scan_batches_miss starts s :
  (forall b, In b starts -> filter answers (hosts_of b) = []) ->
  scan_batches isReachable starts s
  = (None, mkSt (reads s)
             (trace s ++ map probe_event (flat_map round starts) ++ [none_log])).
Proof.
  revert s. induction starts as [|b rest IH]; intros s Hall.
  - reflexivity.
  - cbn [scan_batches]. unfold bind at 1. rewrite probe_all_run.
    fold (hosts_of b). fold (round b).
    rewrite (Hall b (or_introl eq_refl)). cbn [map].
    rewrite IH by (intros; apply Hall; now right).
    cbn [reads trace flat_map]. rewrite map_app, <- !app_assoc. reflexivity.
Qed.

(** Batch [b] is the first that answers: the loop stops there. *)
Lemma scan_batches_hit pre b post h tl s :
  (forall x, In x pre -> filter answers (hosts_of x) = []) ->
  filter answers (hosts_of b) = h :: tl ->
  scan_batches isReachable (pre ++ b :: post) s
  = (Some (candidateIp h),
     mkSt (reads s)
       (trace s ++ map probe_event (flat_map round pre ++ round b)
        ++ [found_log (candidateIp h)])).
Proof.
  revert s. induction pre as [|x pre IH]; intros s Hpre Hb.
  - cbn [app scan_batches]. unfold bind at 1. rewrite probe_all_run.
    fold (hosts_of b). fold (round b). rewrite Hb. cbn [map].
    unfold bind, emit, ret. cbn [reads trace flat_map app].
    rewrite <- !app_assoc. reflexivity.
  - cbn [app scan_batches]. unfold bind at 1. rewrite probe_all_run.
    fold (hosts_of x). fold (round x).
    rewrite (Hpre x (or_introl eq_refl)). cbn [map].
    rewrite IH by (try assumption; intros; apply Hpre; now right).
    cbn [reads trace flat_map]. rewrite !map_app, <- !app_assoc. reflexivity.
Qed.

End ScanFacts.

Section ScanVisits.

Context {dispatcher : Dispatcher}.
Variable isReachable : text -> Z -> option bool.

(** The batches the loop gets to: all up to and including the first
    one in which some host answers. *)
Fixpoint visited (starts : list Z) : list Z :=
  match starts with
  | [] => []
  | b :: rest =>
      if existsb (answers isReachable) (hosts_of b) then [b]
      else b :: visited rest
  end.

Lemma existsb_false_filter {A} (f : A -> bool) l :
  existsb f l = false -> filter f l = [].
Proof.
  induction l as [|a l IH]; cbn; [reflexivity|].
  destruct (f a); cbn; [discriminate | exact IH].
Qed.

Lemma existsb_true_filter {A} (f : A -> bool) l :
  existsb f l = true -> exists h tl, filter f l = h :: tl /\ find f l = Some h.
Proof.
  induction l as [|a l IH]; cbn; [discriminate|].
  destruct (f a); cbn; [eauto | exact IH].
Qed.

Lemma find_none_filter {A} (f : A -> bool) l : filter f l = [] -> find f l = None.
Proof.
  induction l as [|a l IH]; cbn; [reflexivity|].
  destruct (f a); [discriminate | exact IH].
Qed.

Lemma visited_cases starts :
  (visited starts = starts
   /\ forall b, In b starts -> filter (answers isReachable) (hosts_of b) = [])
  \/ exists pre b post h tl,
       starts = pre ++ b :: post /\ visited starts = pre ++ [b]
       /\ (forall x, In x pre -> filter (answers isReachable) (hosts_of x) = [])
       /\ filter (answers isReachable) (hosts_of b) = h :: tl
       /\ find (answers isReachable) (hosts_of b) = Some h.
Proof.
  induction starts as [|b rest IH]; cbn [visited].
  - left. split; [reflexivity | intros b []].
  - destruct (existsb (answers isReachable) (hosts_of b)) eqn:E.
    + right. destruct (existsb_true_filter _ _ E) as (h & tl & Hf & Hh).
      exists [], b, rest, h, tl. repeat split; auto. intros x [].
    + apply existsb_false_filter in E.
      destruct IH as [[Hv Hall] | (pre & b' & post & h & tl & -> & Hv & Hpre & Hb & Hh)].
      * left. split; [now rewrite Hv|]. intros x [<-|Hx]; auto.
      * right. exists (b :: pre), b', post, h, tl. rewrite Hv.
        repeat split; auto. intros x [<-|Hx]; auto.
Qed.




Definition scan_result (starts : list Z) : option Z :=
  find (answers isReachable) (hosts_of (last (visited starts) 0)).

Definition scan_last_log (starts : list Z) : Event :=
  match scan_result starts with
  | Some h => found_log (candidateIp h)
  | None => none_log
  end.

(** The scan from any state: what it returns and what it probes. *)
Lemma scan_batches_visited starts s :
  starts <> [] ->
  scan_batches isReachable starts s
  = (option_map candidateIp (scan_result starts),
     mkSt (reads s)
       (trace s ++ map probe_event (flat_map round (visited starts))
        ++ [scan_last_log starts])).
Proof.
  intros Hne. unfold scan_last_log, scan_result.
  destruct (visited_cases starts)
    as [[Hv Hall] | (pre & b & post & h & tl & -> & Hv & Hpre & Hb & Hh)].
  - rewrite (scan_batches_miss _ _ _ Hall), Hv.
    rewrite find_none_filter; [reflexivity|].
    apply Hall. destruct starts as [|x xs]; [contradiction|].
    apply (@exists_last _ (x :: xs)) in Hne.
    destruct Hne as (l' & a & E). rewrite E. rewrite last_last.
    apply in_or_app. right. now left.
  - rewrite (scan_batches_hit _ pre b post h tl s Hpre Hb), Hv.
    rewrite last_last, Hh. cbn [option_map].
    rewrite flat_map_app. cbn [flat_map]. rewrite app_nil_r. reflexivity.
Qed.

Definition scan_starts : list Z := range_step 2 254 batchSize.

Definition scan_trace : list Event :=
  Log LogD (lit "Starting parallel subnet scan (192.168.49.2-254)...")
  :: map probe_event (flat_map round (visited scan_starts))
  ++ [scan_last_log scan_starts].

Lemma discoverP2pClientIp_run s :
  discoverP2pClientIp isReachable s
  = (option_map candidateIp (scan_result scan_starts),
     mkSt (reads s) (trace s ++ scan_trace)).
Proof.
  unfold discoverP2pClientIp, bind, emit. fold scan_starts.
  rewrite scan_batches_visited by (vm_compute; discriminate).
  cbn [reads trace]. unfold scan_trace. now rewrite <- app_assoc.
Qed.


End ScanVisits.

(** Two dispatchers to run examples on: the one that carries out the
    coroutines of a batch from the highest address down, and the one
    that takes them as they were started. *)
Definition descending : Dispatcher := @rev Z.
Definition ascending : Dispatcher := fun l => l.


Lemma fair_ascending : fair ascending.
Proof. intros l. apply Permutation_refl. Qed.





(** *** Running blocks from any state

    [runs m n a n' eff]: started after [n] reads of the ARP file, with
    whatever trace so far, [m] returns [a], leaves the read count at
    [n'], and adds the effects [eff] (and log lines) to the trace. *)

Definition runs {A} (m : M A) (n : nat) (a : A) (n' : nat) (eff : list Event) : Prop :=
  forall t, exists t',
    m (mkSt n t) = (a, mkSt n' t') /\ effects t' = effects t ++ eff.

Lemma effects_app t1 t2 : effects (t1 ++ t2) = effects t1 ++ effects t2.
Proof. unfold effects. apply filter_app. Qed.

Lemma runs_ret {A} (a : A) n : runs (ret a) n a n [].
Proof. intros t. exists t. split; [reflexivity | now rewrite app_nil_r]. Qed.

Lemma runs_log lvl msg n : runs (emit (Log lvl msg)) n tt n [].
Proof.
  intros t. exists (t ++ [Log lvl msg]). split; [reflexivity|].
  rewrite effects_app. reflexivity.
Qed.

Lemma runs_emit e n : is_log e = false -> runs (emit e) n tt n [e].
Proof.
  intros He t. exists (t ++ [e]). split; [reflexivity|].
  rewrite effects_app. unfold effects at 2. cbn [filter]. now rewrite He.
Qed.

Lemma runs_bind {A B} (m : M A) (k : A -> M B) n a n1 e1 b n2 e2 :
  runs m n a n1 e1 -> runs (k a) n1 b n2 e2 ->
  runs (bind m k) n b n2 (e1 ++ e2).
Proof.
  intros Hm Hk t. destruct (Hm t) as (t1 & E1 & F1).
  destruct (Hk t1) as (t2 & E2 & F2).
  exists t2. unfold bind. rewrite E1, E2. split; [reflexivity|].
  now rewrite F2, F1, app_assoc.
Qed.

Lemma runs_eq {A} (m : M A) n a n' e a2 n2 e2 :
  runs m n a n' e -> a = a2 -> n' = n2 -> e = e2 -> runs m n a2 n2 e2.
Proof. now intros H <- <- <-. Qed.

(** From [runs] back to a run from the empty state. *)
Lemma runs_run {A} (m : M A) a n' eff :
  runs m 0 a n' eff -> fst (run m) = a /\ effects (snd (run m)) = eff.
Proof.
  intros H. destruct (H []) as (t' & E & F).
  unfold run, init. rewrite E. cbn [fst snd trace]. now split.
Qed.

Lemma runs_at {A} (m : M A) n a n' eff s :
  runs m n a n' eff -> reads s = n ->
  fst (m s) = a /\ reads (snd (m s)) = n'
  /\ effects (trace (snd (m s))) = effects (trace s) ++ eff.
Proof.
  intros H <-. destruct s as [n t]. cbn [reads] in H.
  destruct (H t) as (t' & E & F).
  cbn [reads trace]. rewrite E. cbn [fst snd reads trace]. auto.
Qed.

Section ResolverFacts.

Context {dispatcher : Dispatcher}.
Variable arp_file : nat -> ReadResult.
Variable resolveIpFromArp : text -> option text.
Variable isReachable : text -> Z -> option bool.
Variable DHCP_SETTLE_DELAY_MS : Z.

(** What the MAC-free lookup makes of the [k]-th read of the ARP file. *)
Definition arp_answer (k : nat) : option text :=
  match arp_file k with
  | ReadOk arpTable => first_p2p_client (lines arpTable)
  | ReadThrows _ => None
  end.

Lemma runs_resolveAny n :
  runs (resolveAnyP2pClientFromArp arp_file) n (arp_answer n) (S n) [ReadArp].
Proof.
  intros t. unfold resolveAnyP2pClientFromArp, bind, readText, arp_answer.
  cbn [reads trace].
  destruct (arp_file n) as [tbl|msg].
  - destruct (first_p2p_client (lines tbl)) as [ip|];
      unfold bind, emit, ret; cbn [reads trace];
      eexists; (split; [reflexivity|]);
      rewrite !effects_app; cbn [effects filter is_log negb];
      now rewrite !app_nil_r.
  - unfold bind, emit, ret; cbn [reads trace].
    eexists; (split; [reflexivity|]).
    rewrite !effects_app; cbn [effects filter is_log negb];
    now rewrite !app_nil_r.
Qed.

Lemma runs_discover n :
  runs (discoverP2pClientIp isReachable) n
    (fst (run (discoverP2pClientIp isReachable))) n
    (effects (snd (run (discoverP2pClientIp isReachable)))).
Proof.
  intros t. unfold run. rewrite !discoverP2pClientIp_run.
  cbn [fst snd reads trace init app].
  eexists. split; [reflexivity|]. apply effects_app.
Qed.

(** **** The stages and their precedence *)

Inductive Stage :=
| MacArp                 (* MAC-based ARP lookup *)
| MacFreeArp             (* MAC-free ARP lookup *)
| ArpRetry (k : nat)     (* k-th repetition of the MAC-free lookup *)
| SubnetScan.            (* subnet scan *)

Definition precedence : list Stage :=
  [MacArp; MacFreeArp; ArpRetry 1; ArpRetry 2; ArpRetry 3; SubnetScan].

(** The value a stage produces when the resolver is started after
    [base] reads of the ARP file. *)
Definition outcome (base : nat) (mac : text) (st : Stage) : option text :=
  match st with
  | MacArp => resolveIpFromArp mac
  | MacFreeArp => arp_answer base
  | ArpRetry k => arp_answer (k + base)
  | SubnetScan => fst (run (discoverP2pClientIp isReachable))
  end.

(** What executing a stage does. *)
Definition stage_effects (mac : text) (st : Stage) : list Event :=
  match st with
  | MacArp => [ResolveIpFromArp mac]
  | MacFreeArp => [ReadArp]
  | ArpRetry _ => [Delay 2000; ReadArp]
  | SubnetScan => effects (snd (run (discoverP2pClientIp isReachable)))
  end.

(** Walk the stages in order up to the first that produces a value:
    that value, and the stages executed. *)
Fixpoint earliest (base : nat) (mac : text) (sts : list Stage)
  : option text * list Stage :=
  match sts with
  | [] => (None, [])
  | st :: rest =>
      match outcome base mac st with
      | Some ip => (Some ip, [st])
      | None => let (r, ex) := earliest base mac rest in (r, st :: ex)
      end
  end.

Ltac run_block :=
  repeat (cbv beta iota;
    first
    [ apply runs_ret
    | apply runs_log
    | apply runs_emit; reflexivity
    | apply runs_resolveAny
    | apply runs_discover
    | eapply runs_bind
    | match goal with
      | H : ?x = _ |- context [match ?x with _ => _ end] => rewrite H
      end ]).

Lemma resolve_stages_runs mac n :
  exists n',
    runs (resolve_stages arp_file resolveIpFromArp isReachable DHCP_SETTLE_DELAY_MS mac)
      n (fst (earliest n mac precedence)) n'
      (Delay DHCP_SETTLE_DELAY_MS
       :: flat_map (stage_effects mac) (snd (earliest n mac precedence))).
Proof.
  unfold resolve_stages.
  replace (range 1 3) with [1; 2; 3] by reflexivity.
  cbn [arp_retry earliest precedence outcome].
  destruct (resolveIpFromArp mac) as [ip|] eqn:Emac.
  { eexists. eapply runs_eq; [run_block | reflexivity | reflexivity | reflexivity]. }
  destruct (arp_answer n) as [ip|] eqn:E0.
  { eexists. eapply runs_eq; [run_block | reflexivity | reflexivity | reflexivity]. }
  cbn [Nat.add].
  destruct (arp_answer (S n)) as [ip|] eqn:E1.
  { eexists. eapply runs_eq; [run_block | reflexivity | reflexivity | reflexivity]. }
  destruct (arp_answer (S (S n))) as [ip|] eqn:E2.
  { eexists. eapply runs_eq; [run_block | reflexivity | reflexivity | reflexivity]. }
  destruct (arp_answer (S (S (S n)))) as [ip|] eqn:E3.
  { eexists. eapply runs_eq; [run_block | reflexivity | reflexivity | reflexivity]. }
  destruct (fst (run (discoverP2pClientIp isReachable))) as [ip|] eqn:Escan.
  { eexists. eapply runs_eq; [run_block | | reflexivity | reflexivity].
    cbv beta iota. now rewrite Escan. }
  eexists. eapply runs_eq; [run_block | | reflexivity | reflexivity].
  cbv beta iota. now rewrite Escan.
Qed.

End ResolverFacts.

Section Precedence.

Context {dispatcher : Dispatcher}.
Variable arp_file : nat -> ReadResult.
Variable resolveIpFromArp : text -> option text.
Variable isReachable : text -> Z -> option bool.

#[local] Abbreviation outcome' := (outcome arp_file resolveIpFromArp isReachable).
#[local] Abbreviation earliest' := (earliest arp_file resolveIpFromArp isReachable).

(** The executed stages are an initial segment of the given order,
    every executed stage but the last produced nothing, and the result
    is what the last executed stage produced. *)
Lemma earliest_prefix base mac sts :
  sts <> [] ->
  (exists later, sts = snd (earliest' base mac sts) ++ later)
  /\ (forall st, In st (removelast (snd (earliest' base mac sts))) ->
                 outcome' base mac st = None)
  /\ fst (earliest' base mac sts)
     = outcome' base mac (last (snd (earliest' base mac sts)) MacArp).
Proof.
  induction sts as [|st rest IH]; [contradiction|]. intros _.
  cbn [earliest]. destruct (outcome' base mac st) as [ip|] eqn:E.
  - cbn [fst snd last removelast]. repeat split.
    + now exists rest.
    + intros st' [].
    + now rewrite E.
  - destruct rest as [|st2 rest].
    + cbn [earliest fst snd last removelast]. repeat split.
      * now exists [].
      * intros st' [].
      * now rewrite E.
    + destruct IH as ((later & Hl) & Hnone & Hres); [discriminate|].
      destruct (earliest' base mac (st2 :: rest)) as [r ex] eqn:Ee.
      cbn [fst snd] in *.
      assert (Hex : ex <> []).
      { cbn [earliest] in Ee.
        destruct (outcome' base mac st2);
          [|destruct (earliest' base mac rest)]; inversion Ee; discriminate. }
      destruct ex as [|e0 ex]; [contradiction|].
      repeat split.
      * exists later. cbn [app]. now rewrite Hl.
      * cbn [removelast]. intros st' [<-|Hin]; [exact E | now apply Hnone].
      * exact Hres.
Qed.

Lemma NoDup_precedence : NoDup precedence.
Proof.
  unfold precedence.
  repeat (constructor; [cbn; intuition discriminate|]). constructor.
Qed.

End Precedence.

(** C2: the resolver runs MAC-based ARP, MAC-free ARP, up to three
    repetitions of the MAC-free lookup each after a 2000 ms delay, and
    the subnet scan, in that order; it returns the value of the
    earliest stage that produces one and executes no stage after it. *)
Theorem C2_resolver_returns_earliest_successful_stage :
  forall (dispatcher : Dispatcher) (arp_file : nat -> ReadResult)
         (resolveIpFromArp : text -> option text)
         (isReachable : text -> Z -> option bool) (DHCP_SETTLE_DELAY_MS : Z)
         (deviceAddress : text),
    let res := run (resolve_stages arp_file resolveIpFromArp isReachable
                      DHCP_SETTLE_DELAY_MS deviceAddress) in
    let executed := snd (earliest arp_file resolveIpFromArp isReachable 0
                           deviceAddress precedence) in
    let produced := outcome arp_file resolveIpFromArp isReachable 0 deviceAddress in
    NoDup precedence
    /\ (exists later, precedence = executed ++ later)
    /\ (forall st, In st (removelast executed) -> produced st = None)
    /\ fst res = produced (last executed MacArp)
    /\ effects (snd res)
       = Delay DHCP_SETTLE_DELAY_MS
         :: flat_map (stage_effects isReachable deviceAddress) executed.
Proof.
  intros dispatcher arp_file resolveIpFromArp isReachable DHCP mac res executed produced.
  destruct (earliest_prefix arp_file resolveIpFromArp isReachable 0 mac precedence)
    as (Hpre & Hnone & Hres); [discriminate|].
  destruct (resolve_stages_runs arp_file resolveIpFromArp isReachable DHCP mac 0)
    as (n' & Hruns).
  apply runs_run in Hruns. destruct Hruns as [Hr He].
  split; [apply NoDup_precedence|].
  split; [exact Hpre|].
  split; [exact Hnone|].
  split; [|exact He].
  subst res produced executed. now rewrite Hr.
Qed.

(** *** Failure of every stage: teardown and the failure callback *)

(** Events a resolution stage can add to the trace. *)
Definition stage_event (e : Event) : bool :=
  match e with
  | Log _ _ | Delay _ | ResolveIpFromArp _ | ReadArp | IsReachable _ _ => true
  | _ => false
  end.

Lemma stage_events_quiet t :
  forallb stage_event (effects t) = true ->
  failures t = [] /\ connections t = [] /\ filter is_remove_group t = []
  /\ launches t = [].
Proof.
  induction t as [|e t IH]; [now repeat split|].
  unfold effects. cbn [filter].
  destruct e; cbn [is_log negb forallb stage_event andb];
    intros H; try discriminate; destruct (IH H) as (F & C & R & L);
    cbn [failures connections launches flat_map filter is_remove_group app];
    fold (failures t); fold (connections t); fold (launches t);
    now rewrite ?F, ?C, ?R, ?L.
Qed.

Lemma forallb_stage_probe_events l : forallb stage_event (map probe_event l) = true.
Proof. induction l as [|i l IH]; [reflexivity | exact IH]. Qed.

Lemma forallb_stage_scan {dispatcher : Dispatcher} isReachable :
  forallb stage_event (scan_trace isReachable) = true.
Proof.
  unfold scan_trace. cbn [forallb stage_event andb].
  rewrite forallb_app, forallb_stage_probe_events. cbn [forallb andb].
  unfold scan_last_log. now destruct (scan_result isReachable scan_starts).
Qed.

Lemma forallb_filter_weaken {A} (f g : A -> bool) l :
  forallb f l = true -> forallb f (filter g l) = true.
Proof.
  induction l as [|a l IH]; [reflexivity|]. cbn [forallb filter].
  intros H. apply andb_prop in H. destruct H as [Ha Hl].
  destruct (g a); cbn [forallb]; rewrite ?Ha; auto.
Qed.

Lemma forallb_stage_effects {dispatcher : Dispatcher} isReachable mac sts :
  forallb stage_event (flat_map (stage_effects isReachable mac) sts) = true.
Proof.
  induction sts as [|st sts IH]; [reflexivity|].
  cbn [flat_map]. rewrite forallb_app, IH, andb_true_r.
  destruct st; try reflexivity.
  cbn [stage_effects]. unfold run. rewrite discoverP2pClientIp_run.
  cbn [snd trace init app]. apply forallb_filter_weaken, forallb_stage_scan.
Qed.

Section TeardownFacts.

Context {dispatcher : Dispatcher}.
Variable arp_file : nat -> ReadResult.
Variable resolveIpFromArp : text -> option text.
Variable isReachable : text -> Z -> option bool.
Variable DHCP_SETTLE_DELAY_MS : Z.

#[local] Abbreviation stages :=
  (resolve_stages arp_file resolveIpFromArp isReachable DHCP_SETTLE_DELAY_MS).
#[local] Abbreviation block :=
  (resolve_block arp_file resolveIpFromArp isReachable DHCP_SETTLE_DELAY_MS).

(** The stages themselves never tear down, never call back. *)
Lemma stages_quiet mac :
  failures (snd (run (stages mac))) = []
  /\ connections (snd (run (stages mac))) = []
  /\ filter is_remove_group (snd (run (stages mac))) = []
  /\ launches (snd (run (stages mac))) = [].
Proof.
  apply stage_events_quiet.
  destruct (resolve_stages_runs arp_file resolveIpFromArp isReachable
              DHCP_SETTLE_DELAY_MS mac 0) as (n' & Hruns).
  apply runs_run in Hruns. destruct Hruns as [_ He]. rewrite He.
  cbn [forallb stage_event andb]. apply forallb_stage_effects.
Qed.

Definition unresolved_log : Event :=
  Log LogE (lit "Could not resolve client IP from ARP table or subnet scan").

Lemma block_trace_unresolved mac r :
  fst (run (stages mac)) = None ->
  snd (run (block mac r))
  = snd (run (stages mac))
    ++ [unresolved_log; RemoveGroup;
        OnFailure (match r with
                   | Success => lit "Could not resolve client IP"
                   | Failure _ => lit "Could not resolve client IP, cleanup failed"
                   end)].
Proof.
  unfold run, resolve_block, bind.
  destruct (stages mac init) as [ip s1]. cbn [fst snd]. intros ->.
  destruct r; unfold emit; cbn [reads trace]; rewrite <- !app_assoc; reflexivity.
Qed.

Lemma block_trace_resolved mac r ip :
  fst (run (stages mac)) = Some ip ->
  snd (run (block mac r))
  = snd (run (stages mac))
    ++ [Log LogD rule; Log LogD (lit "CONNECTED (GO mode) - Client IP: " ++ ip);
        Log LogD rule; OnConnected ip].
Proof.
  unfold run, resolve_block, bind.
  destruct (stages mac init) as [ip' s1]. cbn [fst snd]. intros ->.
  unfold emit; cbn [reads trace]; rewrite <- !app_assoc; reflexivity.
Qed.

End TeardownFacts.

(** The events that follow the first [removeGroup] call. *)
Fixpoint after_teardown (t : list Event) : list Event :=
  match t with
  | [] => []
  | RemoveGroup :: rest => rest
  | _ :: rest => after_teardown rest
  end.

Lemma after_teardown_app t rest :
  filter is_remove_group t = [] ->
  after_teardown (t ++ RemoveGroup :: rest) = rest.
Proof.
  induction t as [|e t IH]; [reflexivity|].
  destruct e; cbn [filter is_remove_group app after_teardown]; try exact IH.
  discriminate.
Qed.

(** A platform on which every stage fails: no MAC match, an
    unreadable ARP file, no host answering. *)
Definition no_arp : nat -> ReadResult := fun _ => ReadThrows (lit "EACCES").
Definition no_mac : text -> option text := fun _ => None.
Definition no_host : text -> Z -> option bool := fun _ _ => Some false.
Definition peer : text := lit "aa:bb:cc:dd:ee:ff".

(** C4, as stated: a failed teardown is logged.  Nothing is logged
    after [removeGroup] reports failure; the failure callback is the
    only event. *)
Lemma C4_teardown_failure_not_logged :
  existsb is_log
    (after_teardown (snd (run (resolve_block (dispatcher := descending) no_arp no_mac no_host 1500 peer (Failure 2)))))
  <> true.
Proof. vm_compute. discriminate. Qed.

(** C4, amended: when every resolution stage fails, the resolver calls
    [removeGroup] first and then, from its listener, the failure
    callback exactly once: with "Could not resolve client IP" when the
    teardown succeeds and "Could not resolve client IP, cleanup failed"
    when it fails.  The teardown's failure is folded into that message
    and nothing else happens on it (no log line, no retry, no
    success callback). *)
Theorem C4_unresolved_tears_down_then_fails_once :
  forall (dispatcher : Dispatcher) (arp_file : nat -> ReadResult)
         (resolveIpFromArp : text -> option text)
         (isReachable : text -> Z -> option bool) (DHCP_SETTLE_DELAY_MS : Z)
         (deviceAddress : text) (removeGroupResult : ActionResult),
    fst (run (resolve_stages arp_file resolveIpFromArp isReachable
                DHCP_SETTLE_DELAY_MS deviceAddress)) = None ->
    let t := snd (run (resolve_block arp_file resolveIpFromArp isReachable
                         DHCP_SETTLE_DELAY_MS deviceAddress removeGroupResult)) in
    let message := match removeGroupResult with
                   | Success => lit "Could not resolve client IP"
                   | Failure _ => lit "Could not resolve client IP, cleanup failed"
                   end in
    filter is_remove_group t = [RemoveGroup]
    /\ after_teardown t = [OnFailure message]
    /\ failures t = [message]
    /\ connections t = []
    /\ launches t = [].
Proof.
  intros dispatcher arp_file resolveIpFromArp isReachable DHCP mac r Hnone t message.
  subst t. rewrite (block_trace_unresolved _ _ _ _ _ r Hnone).
  destruct (stages_quiet arp_file resolveIpFromArp isReachable DHCP mac)
    as (F & C & R & L).
  fold message.
  repeat split.
  - rewrite filter_app, R. reflexivity.
  - change (?a ++ [unresolved_log; RemoveGroup; OnFailure message])
      with (a ++ [unresolved_log] ++ RemoveGroup :: [OnFailure message]).
    rewrite app_assoc. apply after_teardown_app.
    rewrite filter_app, R. reflexivity.
  - unfold failures. rewrite flat_map_app. fold (failures (snd (run
      (resolve_stages arp_file resolveIpFromArp isReachable DHCP mac)))).
    rewrite F. reflexivity.
  - unfold connections. rewrite flat_map_app. fold (connections (snd (run
      (resolve_stages arp_file resolveIpFromArp isReachable DHCP mac)))).
    rewrite C. reflexivity.
  - unfold launches. rewrite flat_map_app. fold (launches (snd (run
      (resolve_stages arp_file resolveIpFromArp isReachable DHCP mac)))).
    rewrite L. reflexivity.
Qed.

Lemma C4_witness :
  fst (run (resolve_stages (dispatcher := descending) no_arp no_mac no_host 1500 peer)) = None
  /\ failures (snd (run (resolve_block (dispatcher := descending) no_arp no_mac no_host 1500 peer (Failure 2))))
     = [lit "Could not resolve client IP, cleanup failed"].
Proof.
  split; [vm_compute; reflexivity|].
  apply (C4_unresolved_tears_down_then_fails_once
           descending no_arp no_mac no_host 1500 peer (Failure 2)).
  vm_compute; reflexivity.
Defined.

(** *** Resolving the same client again *)

Definition resolve_twice {dispatcher : Dispatcher} (arp_file : nat -> ReadResult)
    (resolveIpFromArp : text -> option text) (isReachable : text -> Z -> option bool)
    (DHCP_SETTLE_DELAY_MS : Z) (deviceAddress : text)
  : M (option text * option text) :=
  bind (resolve_stages arp_file resolveIpFromArp isReachable DHCP_SETTLE_DELAY_MS
          deviceAddress) (fun first =>
  bind (resolve_stages arp_file resolveIpFromArp isReachable DHCP_SETTLE_DELAY_MS
          deviceAddress) (fun second =>
  ret (first, second))).

Definition arp_header : text :=
  lit "IP address       HW type     Flags       HW address            Mask     Device".

(** An ARP file whose table changes between two reads. *)
Definition moving_arp (k : nat) : ReadResult :=
  match k with
  | O => ReadOk (arp_header ++ LF
                  :: lit "192.168.49.12    0x1         0x2         02:00:00:00:00:01     *        p2p0"
                  ++ [LF])
  | S O => ReadOk (arp_header ++ LF
                    :: lit "192.168.49.40    0x1         0x2         02:00:00:00:00:01     *        p2p0"
                    ++ [LF])
  | _ => ReadThrows (lit "EACCES")
  end.

(** C9, as stated: a second resolution returns the stored IP and runs
    no stage.  Here the second resolution reads the ARP file again and
    returns a different address. *)
Lemma C9_second_resolution_reruns :
  fst (run (resolve_twice (dispatcher := descending) moving_arp no_mac no_host 1500 peer))
  = (Some (lit "192.168.49.12"), Some (lit "192.168.49.40"))
  /\ effects (snd (run (resolve_twice (dispatcher := descending) moving_arp no_mac no_host 1500 peer)))
     = [Delay 1500; ResolveIpFromArp peer; ReadArp;
        Delay 1500; ResolveIpFromArp peer; ReadArp]
  /\ ~ (snd (fst (run (resolve_twice (dispatcher := descending) moving_arp no_mac no_host 1500 peer)))
        = fst (fst (run (resolve_twice (dispatcher := descending) moving_arp no_mac no_host 1500 peer)))).
Proof.
  split; [vm_compute; reflexivity|].
  split; [vm_compute; reflexivity|].
  vm_compute. discriminate.
Qed.

(** C9, amended: the resolver keeps no resolved IP.  Within one run
    [clientIp] is set by the earliest stage that produces a value and
    by no stage after it; every run, whatever ran before it, starts
    again at the DHCP delay and the MAC-based lookup and returns what
    its own stages produce. *)
Theorem C9_every_resolution_runs_the_stages :
  forall (dispatcher : Dispatcher) (arp_file : nat -> ReadResult)
         (resolveIpFromArp : text -> option text)
         (isReachable : text -> Z -> option bool) (DHCP_SETTLE_DELAY_MS : Z)
         (deviceAddress : text) (s : St),
    let out := resolve_stages arp_file resolveIpFromArp isReachable
                 DHCP_SETTLE_DELAY_MS deviceAddress s in
    let executed := snd (earliest arp_file resolveIpFromArp isReachable (reads s)
                           deviceAddress precedence) in
    let produced := outcome arp_file resolveIpFromArp isReachable (reads s)
                      deviceAddress in
    (exists more, executed = MacArp :: more)
    /\ (forall st, In st (removelast executed) -> produced st = None)
    /\ fst out = produced (last executed MacArp)
    /\ effects (trace (snd out))
       = effects (trace s)
         ++ Delay DHCP_SETTLE_DELAY_MS
            :: flat_map (stage_effects isReachable deviceAddress) executed.
Proof.
  intros dispatcher arp_file resolveIpFromArp isReachable DHCP mac s out executed produced.
  destruct (earliest_prefix arp_file resolveIpFromArp isReachable (reads s) mac
              precedence) as (_ & Hnone & Hres); [discriminate|].
  destruct (resolve_stages_runs arp_file resolveIpFromArp isReachable DHCP mac
              (reads s)) as (n' & Hruns).
  destruct (runs_at _ _ _ _ _ s Hruns eq_refl) as (Hr & _ & He).
  split.
  { subst executed. cbn [earliest precedence].
    destruct (outcome arp_file resolveIpFromArp isReachable (reads s) mac MacArp);
      [now exists []|].
    match goal with |- context [let (_, _) := ?e in _] => destruct e as [r ex] end.
    now exists ex. }
  split; [exact Hnone|].
  split; [|exact He].
  subst out produced executed. now rewrite Hr.
Qed.

(** *** The connect-retry block *)

Lemma wrap32_small z : - 2 ^ 31 <= z < 2 ^ 31 -> wrap32 z = z.
Proof.
  intros H. unfold wrap32.
  rewrite Z.mod_small by lia. lia.
Qed.

Lemma int_add_1 a : - 2 ^ 31 <= a < Int_MAX_VALUE -> int_add a 1 = a + 1.
Proof. unfold Int_MAX_VALUE, int_add. intros H. apply wrap32_small. lia. Qed.

(** C7: in the retry block the retry of [initiateConnection] is
    launched whatever [discoverPeers] reports; the listener of
    [discoverPeers] only writes a log line. *)
Theorem C7_rediscovery_is_fire_and_forget :
  forall (MAX_CONNECT_RETRIES : Z) (getErrorMessage : Z -> text)
         (deviceAddress errorMsg : text) (connectAttempt : Z)
         (discoverResult : ActionResult),
    let t := snd (run (retry_block MAX_CONNECT_RETRIES getErrorMessage
                         deviceAddress errorMsg connectAttempt discoverResult)) in
    let listener := snd (run (discoverPeers_listener getErrorMessage discoverResult)) in
    forallb is_log listener = true
    /\ List.length listener = 1%nat
    /\ effects t
       = [DiscoverPeers;
          Launch PEER_REDISCOVERY_DELAY_MS
            (InitiateConnection deviceAddress (int_add connectAttempt 1))]
    /\ (exists before, t = before ++ listener
                       /\ launches before
                          = [(3500, InitiateConnection deviceAddress
                                      (int_add connectAttempt 1))])
    /\ failures t = [].
Proof.
  intros MAX gem addr msg attempt r t listener. subst t listener.
  unfold run, retry_block, discoverPeers_listener, bind, emit.
  destruct r; cbn [fst snd trace reads init app];
    (split; [reflexivity|]); (split; [reflexivity|]);
    (split; [reflexivity|]); (split; [|reflexivity]);
    refine (ex_intro _ [_; _; _; _] _); split; reflexivity.
Qed.

(** C1: on a connect error at attempt [a] with [1 <= a < MAX], the
    handler calls [discoverPeers] once and launches one retry of
    [initiateConnection] with attempt [a + 1] after 3500 ms, without
    calling the failure callback; at [a >= MAX] it calls the failure
    callback once and launches nothing. *)
Theorem C1_connect_error_retries_until_the_bound :
  forall (MAX_CONNECT_RETRIES : Z) (getErrorMessage connectFailureMessage : Z -> text)
         (deviceAddress : text) (code connectAttempt : Z)
         (discoverResult : ActionResult),
    1 <= connectAttempt ->
    MAX_CONNECT_RETRIES <= Int_MAX_VALUE ->
    let t := snd (run (onConnectError MAX_CONNECT_RETRIES getErrorMessage
                         connectFailureMessage deviceAddress code connectAttempt
                         discoverResult)) in
    PEER_REDISCOVERY_DELAY_MS = 3500
    /\ (connectAttempt < MAX_CONNECT_RETRIES ->
        filter is_discover t = [DiscoverPeers]
        /\ launches t
           = [(PEER_REDISCOVERY_DELAY_MS,
               InitiateConnection deviceAddress (connectAttempt + 1))]
        /\ failures t = [])
    /\ (MAX_CONNECT_RETRIES <= connectAttempt ->
        failures t = [connectFailureMessage code]
        /\ launches t = []
        /\ filter is_discover t = []).
Proof.
  intros MAX gem cfm addr code attempt r H1 Hmax t. subst t.
  split; [reflexivity|]. unfold onConnectError. split; intros H.
  - destruct (Z.ltb_spec attempt MAX) as [_|]; [|lia].
    rewrite <- (int_add_1 attempt) by (unfold Int_MAX_VALUE in *; lia).
    unfold run, retry_block, discoverPeers_listener, bind, emit.
    destruct r; cbn [fst snd trace reads init app]; repeat split; reflexivity.
  - destruct (Z.ltb_spec attempt MAX) as [|_]; [lia|].
    repeat split; reflexivity.
Qed.

Lemma C1_witness :
  let t1 := snd (run (onConnectError 3 (fun _ => lit "ERROR") (fun _ => lit "Connection failed")
                        peer 7 1 Success)) in
  let t3 := snd (run (onConnectError 3 (fun _ => lit "ERROR") (fun _ => lit "Connection failed")
                        peer 7 3 (Failure 2))) in
  launches t1 = [(3500, InitiateConnection peer 2)]
  /\ failures t3 = [lit "Connection failed"].
Proof.
  split.
  - refine (proj1 (proj2 (proj1 (proj2 (C1_connect_error_retries_until_the_bound
              3 (fun _ => lit "ERROR") (fun _ => lit "Connection failed")
              peer 7 1 Success _ _)) _))); [lia | unfold Int_MAX_VALUE; lia | lia].
  - refine (proj1 (proj2 (proj2 (C1_connect_error_retries_until_the_bound
              3 (fun _ => lit "ERROR") (fun _ => lit "Connection failed")
              peer 7 3 (Failure 2) _ _)) _)); [lia | unfold Int_MAX_VALUE; lia | lia].
Defined.

(** *** The group-info retry block *)

Lemma text_eqb_refl a : text_eqb a a = true.
Proof. induction a as [|x a IH]; [reflexivity|]. cbn. now rewrite N.eqb_refl. Qed.

Lemma text_eqb_eq a b : text_eqb a b = true <-> a = b.
Proof.
  split; [|intros ->; apply text_eqb_refl].
  revert b. induction a as [|x a IH]; intros [|y b]; cbn; try discriminate; auto.
  intros H. apply andb_prop in H. destruct H as [Hx Hab].
  apply N.eqb_eq in Hx. subst y. f_equal. now apply IH.
Qed.

Lemma find_text_none x l : (forall c, In c l -> c <> x) -> find (text_eqb x) l = None.
Proof.
  induction l as [|c l IH]; intros H; [reflexivity|]. cbn [find].
  destruct (text_eqb x c) eqn:E.
  - apply text_eqb_eq in E. exfalso. apply (H c); [now left | now symmetry].
  - apply IH. intros c' Hc'. apply H. now right.
Qed.

(** C8: with no group info the watcher launches itself again with
    attempt + 1 after CONNECTION_RETRY_DELAY_MS, at every attempt
    number, and does nothing else; with group info in which no client
    has the requested address it calls the failure callback once and
    launches nothing. *)
Theorem C8_group_info_retry_has_no_cap :
  forall (dispatcher : Dispatcher) (arp_file : nat -> ReadResult)
         (resolveIpFromArp : text -> option text)
         (isReachable : text -> Z -> option bool)
         (DHCP_SETTLE_DELAY_MS CONNECTION_RETRY_DELAY_MS : Z)
         (clientNotFoundMessage originalDeviceAddress : text) (attempt : Z)
         (removeGroupResult : ActionResult) (clients : list text),
    - 2 ^ 31 <= attempt < Int_MAX_VALUE ->
    (forall c, In c clients -> c <> originalDeviceAddress) ->
    let watch group :=
      snd (run (resolveClientIpFromGroup arp_file resolveIpFromArp isReachable
                  DHCP_SETTLE_DELAY_MS CONNECTION_RETRY_DELAY_MS clientNotFoundMessage
                  group originalDeviceAddress attempt removeGroupResult)) in
    watch None
    = [Launch CONNECTION_RETRY_DELAY_MS
         (ResolveClientIpFromGroup originalDeviceAddress (attempt + 1))]
    /\ watch (Some clients) = [OnFailure clientNotFoundMessage].
Proof.
  intros dispatcher arp_file resolveIpFromArp isReachable DHCP CRD msg addr attempt r clients
    Hrange Hnone watch. subst watch. cbv beta. split.
  - unfold resolveClientIpFromGroup, group_retry_block, run, emit.
    cbn [fst snd trace reads init app]. now rewrite int_add_1.
  - unfold resolveClientIpFromGroup. rewrite (find_text_none _ _ Hnone). reflexivity.
Qed.

Lemma C8_witness :
  let watch group :=
    snd (run (resolveClientIpFromGroup (dispatcher := descending) no_arp no_mac no_host 1500 1000
                (lit "Client not found in group") group peer 40 Success)) in
  watch None = [Launch 1000 (ResolveClientIpFromGroup peer 41)]
  /\ watch (Some [lit "11:22:33:44:55:66"])
     = [OnFailure (lit "Client not found in group")].
Proof.
  apply (C8_group_info_retry_has_no_cap descending no_arp no_mac no_host 1500 1000
           (lit "Client not found in group") peer 40 Success
           [lit "11:22:33:44:55:66"]).
  - unfold Int_MAX_VALUE. lia.
  - intros c [<-|[]]. vm_compute. discriminate.
Defined.

(** *** The MAC-free ARP lookup *)

(** The first whitespace-delimited token of a line, as the loop of
    [resolveAnyP2pClientFromArp] takes it. *)
Definition first_token (line : text) : text := hd [] (split_ws (trim line)).

(** The test the loop applies to it. *)
Definition passes (tok : text) : bool :=
  starts_with subnet_prefix tok && negb (text_eqb tok own_address).

Lemma first_p2p_client_find ls :
  first_p2p_client ls = find passes (map first_token ls).
Proof.
  induction ls as [|line rest IH]; [reflexivity|].
  cbn [first_p2p_client map find].
  change (first_token line) with (hd [] (split_ws (trim line))).
  destruct (split_ws (trim line)) as [|tok ps]; cbn [hd].
  - rewrite IH. reflexivity.
  - unfold passes at 1. rewrite IH. reflexivity.
Qed.

(** **** Tables of entries and their text *)

Record ArpEntry := mkArpEntry {
  entry_ip : Z * Z * Z * Z;      (* IPv4 address, four octets *)
  entry_columns : text           (* HW type, flags, HW address, mask, device *)
}.

Definition dot : char := 46%N.
Definition space : char := 32%N.

Definition render_ip (q : Z * Z * Z * Z) : text :=
  let '(a, b, c, d) := q in
  dec a ++ dot :: dec b ++ dot :: dec c ++ dot :: dec d.

Definition render_row (e : ArpEntry) : text :=
  render_ip (entry_ip e) ++ space :: entry_columns e.

(** /proc/net/arp: a header line, then one line per entry. *)
Definition render_table (rows : list ArpEntry) : text :=
  arp_header ++ LF :: flat_map (fun e => render_row e ++ [LF]) rows.

Definition octet (z : Z) : bool := (0 <=? z) && (z <=? 255).

Definition no_break (s : text) : bool :=
  forallb (fun c => negb (c =? LF)%N && negb (c =? CR)%N) s.

Definition valid_entry (e : ArpEntry) : bool :=
  let '(a, b, c, d) := entry_ip e in
  octet a && octet b && octet c && octet d && no_break (entry_columns e).

(** The address lies in 192.168.49.0/24. *)
Definition in_group_subnet (q : Z * Z * Z * Z) : bool :=
  let '(a, b, c, _) := q in (a =? 192) && (b =? 168) && (c =? 49).

(** The address is the group owner's, 192.168.49.1. *)
Definition is_group_owner (q : Z * Z * Z * Z) : bool :=
  let '(a, b, c, d) := q in (a =? 192) && (b =? 168) && (c =? 49) && (d =? 1).

Definition is_client (q : Z * Z * Z * Z) : bool :=
  in_group_subnet q && negb (is_group_owner q).

(** **** Decimal octets *)

Definition is_digit (c : char) : bool := ((48 <=? c) && (c <=? 57))%N.

Lemma in_range lo hi z : In z (range lo hi) <-> lo <= z <= hi.
Proof.
  unfold range. rewrite in_map_iff. split.
  - intros (k & <- & Hk). apply in_seq in Hk. lia.
  - intros H. exists (Z.to_nat (z - lo)). split; [lia|]. apply in_seq. lia.
Qed.

Lemma octet_in_range z : octet z = true -> In z (range 0 255).
Proof.
  unfold octet. intros H. apply andb_prop in H. destruct H as [H0 H1].
  apply in_range. apply Z.leb_le in H0. apply Z.leb_le in H1. lia.
Qed.

Lemma dec_octet_digits z :
  octet z = true -> forallb is_digit (dec z) = true /\ dec z <> [].
Proof.
  intros H. apply octet_in_range in H.
  assert (A : forallb (fun z => forallb is_digit (dec z)
                                && negb (text_eqb (dec z) []))
                (range 0 255) = true) by (vm_compute; reflexivity).
  rewrite forallb_forall in A. specialize (A z H).
  apply andb_prop in A. destruct A as [A1 A2]. split; [exact A1|].
  intros E. rewrite E in A2. discriminate.
Qed.

(** [dec] tells an octet from 192, 168, 49 and 1. *)
Lemma dec_octet_eqb z :
  octet z = true ->
  text_eqb (lit "192") (dec z) = (z =? 192)
  /\ text_eqb (lit "168") (dec z) = (z =? 168)
  /\ text_eqb (lit "49") (dec z) = (z =? 49)
  /\ text_eqb (dec z) (lit "1") = (z =? 1).
Proof.
  intros H. apply octet_in_range in H.
  assert (A : forallb (fun z =>
                 Bool.eqb (text_eqb (lit "192") (dec z)) (z =? 192)
                 && Bool.eqb (text_eqb (lit "168") (dec z)) (z =? 168)
                 && Bool.eqb (text_eqb (lit "49") (dec z)) (z =? 49)
                 && Bool.eqb (text_eqb (dec z) (lit "1")) (z =? 1))
                (range 0 255) = true) by (vm_compute; reflexivity).
  rewrite forallb_forall in A. specialize (A z H).
  repeat (apply andb_prop in A; destruct A as [A ?]).
  repeat split; now apply Bool.eqb_prop.
Qed.

(** **** Lines, trimming and splitting of a rendered row *)

(** Characters of a rendered address: digits and dots. *)
Definition ip_char (c : char) : bool := is_digit c || (c =? dot)%N.

Lemma ip_char_solid c :
  ip_char c = true ->
  isWhitespace c = false /\ is_regex_space c = false
  /\ (c =? LF)%N = false /\ (c =? CR)%N = false.
Proof.
  unfold ip_char, is_digit, dot. intros H.
  assert (Hc : (46 <= c <= 57)%N).
  { apply orb_prop in H. destruct H as [H|H].
    - apply andb_prop in H. destruct H as [H1 H2].
      apply N.leb_le in H1. apply N.leb_le in H2. lia.
    - apply N.eqb_eq in H. lia. }
  clear H. unfold isWhitespace, is_regex_space, LF, CR.
  repeat split;
    repeat match goal with
           | |- context [(?a <=? ?b)%N] => destruct (N.leb_spec a b); try lia
           | |- context [(?a =? ?b)%N] => destruct (N.eqb_spec a b); try lia
           end; reflexivity.
Qed.

Lemma digits_ip_chars s : forallb is_digit s = true -> forallb ip_char s = true.
Proof.
  induction s as [|c s IH]; [reflexivity|]. cbn [forallb]. intros H.
  apply andb_prop in H. destruct H as [Hc Hs].
  rewrite (IH Hs). unfold ip_char. now rewrite Hc.
Qed.

Lemma render_ip_chars q :
  (let '(a, b, c, d) := q in octet a && octet b && octet c && octet d) = true ->
  forallb ip_char (render_ip q) = true /\ render_ip q <> [].
Proof.
  destruct q as [[[a b] c] d]. intros H.
  apply andb_prop in H. destruct H as [H Hd].
  apply andb_prop in H. destruct H as [H Hc].
  apply andb_prop in H. destruct H as [Ha Hb].
  destruct (dec_octet_digits a Ha) as [Da Na].
  destruct (dec_octet_digits b Hb) as [Db _].
  destruct (dec_octet_digits c Hc) as [Dc _].
  destruct (dec_octet_digits d Hd) as [Dd _].
  unfold render_ip. split.
  - rewrite forallb_app. cbn [forallb]. rewrite forallb_app. cbn [forallb].
    rewrite forallb_app. cbn [forallb].
    rewrite !digits_ip_chars by assumption. reflexivity.
  - destruct (dec a); [contradiction | discriminate].
Qed.

Lemma lines_line l s :
  no_break l = true -> lines (l ++ LF :: s) = l :: lines s.
Proof.
  induction l as [|c l IH]; intros H.
  - reflexivity.
  - cbn [no_break forallb] in H. apply andb_prop in H. destruct H as [Hc Hl].
    apply andb_prop in Hc. destruct Hc as [Hlf Hcr].
    apply negb_true_iff in Hlf. apply negb_true_iff in Hcr.
    cbn [app lines]. rewrite Hcr, Hlf. now rewrite (IH Hl).
Qed.

Lemma drop_while_head f c l : f c = false -> drop_while f (c :: l) = c :: l.
Proof. intros H. cbn [drop_while]. now rewrite H. Qed.

Lemma drop_while_app_cases f l1 x l2 :
  drop_while f (l1 ++ x :: l2) = drop_while f (x :: l2)
  \/ exists l1', drop_while f (l1 ++ x :: l2) = l1' ++ x :: l2.
Proof.
  induction l1 as [|a l1 IH]; [now left|].
  cbn [app drop_while]. destruct (f a); [exact IH|].
  right. now exists (a :: l1).
Qed.

(** Trimming a row keeps its leading address and at most cuts the
    columns short. *)
Lemma trim_row tok rest :
  tok <> [] -> forallb ip_char tok = true ->
  trim (tok ++ space :: rest) = tok
  \/ exists rest', trim (tok ++ space :: rest) = tok ++ space :: rest'.
Proof.
  intros Hne Htok. unfold trim.
  assert (Hfirst : drop_while isWhitespace (tok ++ space :: rest)
                   = tok ++ space :: rest).
  { destruct tok as [|c tok]; [contradiction|]. cbn [forallb] in Htok.
    apply andb_prop in Htok. destruct Htok as [Hc _].
    apply drop_while_head. now destruct (ip_char_solid c Hc). }
  assert (Hlast : drop_while isWhitespace (rev tok) = rev tok).
  { destruct (rev tok) as [|c r] eqn:R.
    - reflexivity.
    - apply drop_while_head.
      assert (Hin : In c tok) by (apply in_rev; rewrite R; now left).
      rewrite forallb_forall in Htok.
      now destruct (ip_char_solid c (Htok c Hin)). }
  rewrite Hfirst, rev_app_distr. cbn [rev]. rewrite <- app_assoc. cbn [app].
  destruct (drop_while_app_cases isWhitespace (rev rest) space (rev tok))
    as [E | (l1' & E)]; rewrite E.
  - left. cbn [drop_while]. change (isWhitespace space) with true. cbv iota.
    rewrite Hlast. apply rev_involutive.
  - right. exists (rev l1'). rewrite rev_app_distr. cbn [rev].
    rewrite rev_involutive, <- app_assoc. reflexivity.
Qed.

Lemma split_ws_token tok :
  forallb ip_char tok = true -> split_ws_from false tok = [tok].
Proof.
  induction tok as [|c tok IH]; [reflexivity|]. cbn [forallb]. intros H.
  apply andb_prop in H. destruct H as [Hc Ht].
  destruct (ip_char_solid c Hc) as (_ & R & _).
  cbn [split_ws_from]. now rewrite R, (IH Ht).
Qed.

Lemma split_ws_token_space tok rest :
  forallb ip_char tok = true ->
  split_ws_from false (tok ++ space :: rest) = tok :: split_ws_from true rest.
Proof.
  induction tok as [|c tok IH]; [reflexivity|]. cbn [forallb]. intros H.
  apply andb_prop in H. destruct H as [Hc Ht].
  destruct (ip_char_solid c Hc) as (_ & R & _).
  cbn [app split_ws_from]. now rewrite R, (IH Ht).
Qed.

(** The first token of a rendered row is its rendered address. *)
Lemma first_token_row e :
  valid_entry e = true -> first_token (render_row e) = render_ip (entry_ip e).
Proof.
  unfold valid_entry, render_row, first_token, split_ws. intros H.
  assert (Hq : (let '(a, b, c, d) := entry_ip e in
                octet a && octet b && octet c && octet d) = true).
  { destruct (entry_ip e) as [[[a b] c] d]. now apply andb_prop in H. }
  destruct (render_ip_chars _ Hq) as [Hchars Hne].
  destruct (trim_row _ (entry_columns e) Hne Hchars) as [E | (rest' & E)];
    rewrite E.
  - now rewrite split_ws_token.
  - now rewrite split_ws_token_space.
Qed.

(** **** The textual test on a rendered address *)

Lemma text_eqb_sym a b : text_eqb a b = text_eqb b a.
Proof.
  revert b. induction a as [|x a IH]; intros [|y b]; cbn; try reflexivity.
  now rewrite N.eqb_sym, IH.
Qed.

Lemma digit_not_dot c : is_digit c = true -> (c =? dot)%N = false.
Proof.
  unfold is_digit, dot. intros H. apply andb_prop in H. destruct H as [H1 H2].
  apply N.leb_le in H1. apply N.eqb_neq. lia.
Qed.

(** Two dotted texts are compared segment by segment. *)
Lemma starts_with_segment w u p v :
  forallb is_digit w = true -> forallb is_digit u = true ->
  starts_with (w ++ dot :: p) (u ++ dot :: v) = text_eqb w u && starts_with p v.
Proof.
  revert u. induction w as [|x w IH]; intros [|y u] Hw Hu; cbn [app starts_with text_eqb].
  - now rewrite N.eqb_refl.
  - cbn [forallb] in Hu. apply andb_prop in Hu. destruct Hu as [Hy _].
    apply digit_not_dot in Hy. now rewrite N.eqb_sym, Hy.
  - cbn [forallb] in Hw. apply andb_prop in Hw. destruct Hw as [Hx _].
    apply digit_not_dot in Hx. now rewrite Hx.
  - cbn [forallb] in Hw, Hu.
    apply andb_prop in Hw. destruct Hw as [_ Hw].
    apply andb_prop in Hu. destruct Hu as [_ Hu].
    rewrite (IH u Hw Hu). now rewrite andb_assoc.
Qed.

Lemma text_eqb_segment w u p v :
  forallb is_digit w = true -> forallb is_digit u = true ->
  text_eqb (w ++ dot :: p) (u ++ dot :: v) = text_eqb w u && text_eqb p v.
Proof.
  revert u. induction w as [|x w IH]; intros [|y u] Hw Hu; cbn [app text_eqb].
  - now rewrite N.eqb_refl.
  - cbn [forallb] in Hu. apply andb_prop in Hu. destruct Hu as [Hy _].
    apply digit_not_dot in Hy. now rewrite N.eqb_sym, Hy.
  - cbn [forallb] in Hw. apply andb_prop in Hw. destruct Hw as [Hx _].
    apply digit_not_dot in Hx. now rewrite Hx.
  - cbn [forallb] in Hw, Hu.
    apply andb_prop in Hw. destruct Hw as [_ Hw].
    apply andb_prop in Hu. destruct Hu as [_ Hu].
    rewrite (IH u Hw Hu). now rewrite andb_assoc.
Qed.

Lemma passes_render_ip q :
  (let '(a, b, c, d) := q in octet a && octet b && octet c && octet d) = true ->
  passes (render_ip q) = is_client q.
Proof.
  destruct q as [[[a b] c] d]. intros H.
  apply andb_prop in H. destruct H as [H Hd].
  apply andb_prop in H. destruct H as [H Hc].
  apply andb_prop in H. destruct H as [Ha Hb].
  destruct (dec_octet_digits a Ha) as [Da _].
  destruct (dec_octet_digits b Hb) as [Db _].
  destruct (dec_octet_digits c Hc) as [Dc _].
  destruct (dec_octet_eqb a Ha) as (Ea & _).
  destruct (dec_octet_eqb b Hb) as (_ & Eb & _).
  destruct (dec_octet_eqb c Hc) as (_ & _ & Ec & _).
  destruct (dec_octet_eqb d Hd) as (_ & _ & _ & Ed).
  unfold passes, is_client, in_group_subnet, is_group_owner, render_ip.
  change subnet_prefix
    with (lit "192" ++ dot :: lit "168" ++ dot :: lit "49" ++ dot :: []).
  change own_address
    with (lit "192" ++ dot :: lit "168" ++ dot :: lit "49" ++ dot :: lit "1").
  rewrite !starts_with_segment by (assumption || reflexivity).
  rewrite !text_eqb_segment by (assumption || reflexivity).
  rewrite (text_eqb_sym (dec a)), (text_eqb_sym (dec b)), (text_eqb_sym (dec c)).
  rewrite Ea, Eb, Ec, Ed. cbn [starts_with].
  now rewrite andb_true_r, !andb_assoc.
Qed.

(** **** The lines of a rendered table *)

Lemma no_break_row e : valid_entry e = true -> no_break (render_row e) = true.
Proof.
  unfold valid_entry, render_row. intros H.
  assert (Hq : (let '(a, b, c, d) := entry_ip e in
                octet a && octet b && octet c && octet d) = true
               /\ no_break (entry_columns e) = true).
  { destruct (entry_ip e) as [[[a b] c] d]. now apply andb_prop in H. }
  destruct Hq as [Hq Hcols].
  destruct (render_ip_chars _ Hq) as [Hchars _].
  unfold no_break in *. rewrite forallb_app. cbn [forallb].
  apply andb_true_intro. split;
    [|apply andb_true_intro; split; [reflexivity | exact Hcols]].
  rewrite forallb_forall in Hchars. apply forallb_forall. intros c Hc.
  destruct (ip_char_solid c (Hchars c Hc)) as (_ & _ & L & R). now rewrite L, R.
Qed.

Lemma lines_rows rows :
  forallb valid_entry rows = true ->
  lines (flat_map (fun e => render_row e ++ [LF]) rows)
  = map render_row rows ++ [[]].
Proof.
  induction rows as [|e rows IH]; [reflexivity|]. cbn [forallb]. intros H.
  apply andb_prop in H. destruct H as [He Hr].
  cbn [flat_map map app]. rewrite <- app_assoc. cbn [app].
  rewrite lines_line by now apply no_break_row. now rewrite (IH Hr).
Qed.

Lemma lines_table rows :
  forallb valid_entry rows = true ->
  lines (render_table rows) = arp_header :: map render_row rows ++ [[]].
Proof.
  intros H. unfold render_table.
  rewrite lines_line by (vm_compute; reflexivity). now rewrite lines_rows.
Qed.

Lemma find_rows rows :
  forallb valid_entry rows = true ->
  find passes (map first_token (map render_row rows ++ [[]]))
  = option_map render_ip (find is_client (map entry_ip rows)).
Proof.
  induction rows as [|e rows IH]; [intros _; vm_compute; reflexivity|].
  cbn [forallb]. intros H. apply andb_prop in H. destruct H as [He Hr].
  cbn [map app find]. rewrite (first_token_row e He).
  rewrite passes_render_ip.
  2:{ unfold valid_entry in He. destruct (entry_ip e) as [[[a b] c] d].
      now apply andb_prop in He. }
  destruct (is_client (entry_ip e)); [reflexivity | now apply IH].
Qed.

(** C5: on an ARP table of entries, the MAC-free lookup returns the
    address of the first entry, in table order, that lies in
    192.168.49.0/24 and is not 192.168.49.1, and null when there is
    none. *)
Theorem C5_mac_free_arp_returns_first_subnet_entry :
  forall (arp_file : nat -> ReadResult) (s : St) (rows : list ArpEntry),
    forallb valid_entry rows = true ->
    arp_file (reads s) = ReadOk (render_table rows) ->
    fst (resolveAnyP2pClientFromArp arp_file s)
    = option_map render_ip (find is_client (map entry_ip rows)).
Proof.
  intros arp_file s rows Hvalid Hread.
  destruct (runs_at _ _ _ _ _ s (runs_resolveAny arp_file (reads s)) eq_refl)
    as (Hr & _).
  rewrite Hr. unfold arp_answer. rewrite Hread.
  rewrite first_p2p_client_find, (lines_table rows Hvalid).
  cbn [map find].
  replace (passes (first_token arp_header)) with false by (vm_compute; reflexivity).
  now apply find_rows.
Qed.

Definition sample_columns : text :=
  lit "   0x1         0x2         02:00:00:00:00:01     *        p2p0".

Definition sample_rows : list ArpEntry :=
  [ mkArpEntry (192, 168, 49, 1) sample_columns;
    mkArpEntry (10, 0, 0, 3) sample_columns;
    mkArpEntry (192, 168, 49, 12) sample_columns;
    mkArpEntry (192, 168, 49, 40) sample_columns ].

Lemma C5_witness :
  fst (resolveAnyP2pClientFromArp (fun _ => ReadOk (render_table sample_rows)) init)
  = Some (lit "192.168.49.12").
Proof.
  apply (C5_mac_free_arp_returns_first_subnet_entry
           (fun _ => ReadOk (render_table sample_rows)) init sample_rows).
  - vm_compute; reflexivity.
  - reflexivity.
Defined.

(** **** Caches that are not tables *)

Fixpoint split_dot (s : text) : list text :=
  match s with
  | [] => [[]]
  | c :: s' =>
      if (c =? dot)%N then [] :: split_dot s'
      else match split_dot s' with
           | p :: ps => (c :: p) :: ps
           | [] => [[c]]
           end
  end.

(** A decimal octet, written without leading zeros. *)
Definition parse_octet (p : text) : option Z :=
  find (fun n => text_eqb (dec n) p) (range 0 255).

Definition parse_ipv4 (tok : text) : option (Z * Z * Z * Z) :=
  match split_dot tok with
  | [a; b; c; d] =>
      match parse_octet a, parse_octet b, parse_octet c, parse_octet d with
      | Some a', Some b', Some c', Some d' => Some (a', b', c', d')
      | _, _, _, _ => None
      end
  | _ => None
  end.

(** A well-formed cache: a header line, then lines that are blank or
    begin with an IPv4 address. *)
Definition well_formed_table (arpTable : text) : bool :=
  match lines arpTable with
  | [] => false
  | _ :: rows =>
      forallb (fun l => match trim l with
                        | [] => true
                        | _ :: _ => match parse_ipv4 (first_token l) with
                                    | Some _ => true
                                    | None => false
                                    end
                        end) rows
  end.

Example sample_table_well_formed : well_formed_table (render_table sample_rows) = true.
Proof. vm_compute. reflexivity. Qed.

Definition malformed_arp : text :=
  arp_header ++ LF
  :: lit "192.168.49.x     0x1         0x2         02:00:00:00:00:01     *        p2p0"
  ++ [LF].

(** C6, as stated: a malformed cache yields null.  This cache is
    malformed and the lookup returns its garbled token. *)
Lemma C6_malformed_cache_yields_a_token :
  well_formed_table malformed_arp = false
  /\ fst (resolveAnyP2pClientFromArp (fun _ => ReadOk malformed_arp) init)
     = Some (lit "192.168.49.x")
  /\ fst (resolveAnyP2pClientFromArp (fun _ => ReadOk malformed_arp) init) <> None.
Proof.
  split; [vm_compute; reflexivity|].
  split; [vm_compute; reflexivity|].
  vm_compute. discriminate.
Qed.

(** C6, amended: the ARP read never raises to its caller.  It reads
    the file once and returns a value in every case: null when the
    read throws; otherwise, for any text, well-formed or not, the first
    line-leading token that starts with "192.168.49." and is not
    "192.168.49.1", and null when no line has one. *)
Theorem C6_arp_read_always_returns :
  forall (arp_file : nat -> ReadResult) (s : St),
    let out := resolveAnyP2pClientFromArp arp_file s in
    fst out
    = match arp_file (reads s) with
      | ReadThrows _ => None
      | ReadOk arpTable => find passes (map first_token (lines arpTable))
      end
    /\ reads (snd out) = S (reads s)
    /\ effects (trace (snd out)) = effects (trace s) ++ [ReadArp].
Proof.
  intros arp_file s out. subst out.
  destruct (runs_at _ _ _ _ _ s (runs_resolveAny arp_file (reads s)) eq_refl)
    as (Hr & Hn & He).
  split; [|split; assumption].
  rewrite Hr. unfold arp_answer.
  destruct (arp_file (reads s)); [apply first_p2p_client_find | reflexivity].
Qed.

(** *** The scenarios of the specification *)

Definition only_host (i : Z) : text -> Z -> option bool :=
  fun ip _ => Some (text_eqb ip (candidateIp i)).

(** MAC-based ARP misses, MAC-free ARP finds 192.168.49.12. *)
Example scenario_mac_free_arp :
  connections (snd (run (resolve_block (dispatcher := descending)
                           (fun _ => ReadOk (render_table sample_rows))
                           no_mac no_host 1500 peer Success)))
  = [lit "192.168.49.12"].
Proof. vm_compute. reflexivity. Qed.

(** Every ARP stage fails, batch [2,26] is silent, 192.168.49.40
    answers in batch [27,51]: hosts 2..51 are probed, no other.  Under
    the descending dispatcher each batch is probed from its highest
    host down. *)
Example scenario_subnet_scan :
  let t := snd (run (resolve_block (dispatcher := descending) no_arp no_mac (only_host 40) 1500 peer Success)) in
  connections t = [lit "192.168.49.40"]
  /\ probes t = map (fun i => (candidateIp i, 500))
                    (rev (range 2 26) ++ rev (range 27 51))
  /\ delays t = [1500; 2000; 2000; 2000].
Proof. vm_compute. repeat split; reflexivity. Qed.

(** Every stage fails over the whole range. *)
Example scenario_unresolved :
  let t := snd (run (resolve_block (dispatcher := descending) no_arp no_mac no_host 1500 peer Success)) in
  failures t = [lit "Could not resolve client IP"]
  /\ connections t = []
  /\ List.length (probes t) = 253%nat.
Proof. vm_compute. repeat split; reflexivity. Qed.

(* ================================================================= *)
(** ** Properties of the patch scripts *)
(* ================================================================= *)

Import Patch.

Inductive ScriptName := FixConnectionManager | FixGoIpV2 | FixGoIpV3.

Section Edits.

Variable new_retry_lines : list text.
Variable new_launch_block : list text.
Variable new_with_fallback : text.
Variable new_scan : list text.
Variable new_second_scope : list text.

Definition run_script (name : ScriptName) : Script unit :=
  match name with
  | FixConnectionManager => fix_connection_manager new_retry_lines
  | FixGoIpV2 => fix_go_ip_v2 new_launch_block new_with_fallback new_scan
  | FixGoIpV3 => fix_go_ip_v3 new_second_scope
  end.

(** What each script computes in memory from the text of the file:
    the new text, or [None] as soon as one of its markers is not
    found. *)

Definition edit_connection_manager (content : text) : option text :=
  let content := replace old_interp new_interp (replace CRLF [LF] content) in
  if contains old_const content then
    let lines := split_lf (replace1 old_const new_const content) in
    match first_line (contains (lit "cleaning up before retry...")) lines with
    | Some st =>
        match retry_block_end lines st with
        | Some en => Some (join_lf (assign_slice lines st (en + 1) new_retry_lines))
        | None => None
        end
    | None => None
    end
  else None.

Definition edit_go_ip_v2 (content : text) : option text :=
  let lines := split_lf (replace CRLF [LF] content) in
  match find_scope_launch None 0 lines with
  | None => None
  | Some scope_launch_line =>
      match block_end lines scope_launch_line with
      | None => None
      | Some scope_launch_end =>
          let content :=
            join_lf (assign_slice lines scope_launch_line (scope_launch_end + 1)
                       new_launch_block) in
          if contains old_marker content then
            let lines := split_lf (replace1 old_marker new_with_fallback content) in
            match first_line
                    (contains (lit "private suspend fun discoverP2pClientIp()"))
                    lines with
            | None => None
            | Some st =>
                match function_end lines st with
                | None => None
                | Some en => Some (join_lf (assign_slice lines st (en + 1) new_scan))
                end
            end
          else None
      end
  end.

Definition edit_go_ip_v3 (content : text) : option text :=
  let lines := split_lf (replace CRLF [LF] content) in
  match first_line (contains (lit "Group info null, retrying")) lines with
  | None => None
  | Some group_null_retry_line =>
      let first_scope_line := (group_null_retry_line + 1)%nat in
      match block_end lines first_scope_line with
      | None => None
      | Some first_scope_end =>
          let lines :=
            split_lf (join_lf (assign_slice lines first_scope_line
                                 (first_scope_end + 1) new_first_scope)) in
          match first_line (contains (lit "val targetClient = clients.firstOrNull"))
                  lines with
          | None => None
          | Some target_client_line =>
              match first_in_range (contains (lit "scope.launch")) lines
                      target_client_line
                      (Nat.min (target_client_line + 10) (List.length lines)) with
              | None => None
              | Some second_scope_line =>
                  match block_end lines second_scope_line with
                  | None => None
                  | Some second_scope_end =>
                      Some (join_lf (assign_slice lines second_scope_line
                                       (second_scope_end + 1) new_second_scope))
                  end
              end
          end
      end
  end.

Definition edit (name : ScriptName) : text -> option text :=
  match name with
  | FixConnectionManager => edit_connection_manager
  | FixGoIpV2 => edit_go_ip_v2
  | FixGoIpV3 => edit_go_ip_v3
  end.

(** What a run leaves on disk, and how it ends. *)
Definition committed (content' : text) (r : (unit + Exit) * Proc) : Prop :=
  fst r = inl tt /\ file (snd r) = Holds content' /\ writes (snd r) = 1%nat.

Definition untouched (d : Disk) (r : (unit + Exit) * Proc) : Prop :=
  exit_status (fst r) = 1 /\ file (snd r) = d /\ writes (snd r) = 0%nat.

Ltac destruct_lookup :=
  match goal with
  | |- context [contains ?a ?b] => destruct (contains a b)
  | |- context [first_line ?a ?b] => destruct (first_line a b)
  | |- context [retry_block_end ?a ?b] => destruct (retry_block_end a b)
  | |- context [find_scope_launch ?a ?b ?c] => destruct (find_scope_launch a b c)
  | |- context [block_end ?a ?b] => destruct (block_end a b)
  | |- context [function_end ?a ?b] => destruct (function_end a b)
  | |- context [first_in_range ?a ?b ?c ?d] => destruct (first_in_range a b c d)
  end.

Ltac run_script_cases :=
  unfold bind, read_file, print, write_file, sys_exit, raise, plus_one, Patch.ret, start;
  cbv zeta; cbn [file writes stdout fst snd];
  repeat (destruct_lookup; cbn [file writes stdout fst snd]);
  repeat split; reflexivity.

Lemma fix_connection_manager_atomic content :
  match edit_connection_manager content with
  | Some content' =>
      committed content'
        (fix_connection_manager new_retry_lines (start (Holds content)))
  | None =>
      untouched (Holds content)
        (fix_connection_manager new_retry_lines (start (Holds content)))
  end.
Proof.
  unfold edit_connection_manager, fix_connection_manager, committed, untouched.
  run_script_cases.
Qed.

Lemma fix_go_ip_v2_atomic content :
  match edit_go_ip_v2 content with
  | Some content' =>
      committed content'
        (fix_go_ip_v2 new_launch_block new_with_fallback new_scan
           (start (Holds content)))
  | None =>
      untouched (Holds content)
        (fix_go_ip_v2 new_launch_block new_with_fallback new_scan
           (start (Holds content)))
  end.
Proof.
  unfold edit_go_ip_v2, fix_go_ip_v2, committed, untouched.
  run_script_cases.
Qed.

Lemma fix_go_ip_v3_atomic content :
  match edit_go_ip_v3 content with
  | Some content' =>
      committed content'
        (fix_go_ip_v3 new_second_scope (start (Holds content)))
  | None =>
      untouched (Holds content)
        (fix_go_ip_v3 new_second_scope (start (Holds content)))
  end.
Proof.
  unfold edit_go_ip_v3, fix_go_ip_v3, committed, untouched.
  run_script_cases.
Qed.

Lemma unreadable_untouched name exception :
  untouched (Unreadable exception) (run_script name (start (Unreadable exception))).
Proof.
  destruct name; unfold run_script, untouched;
    [unfold fix_connection_manager | unfold fix_go_ip_v2 | unfold fix_go_ip_v3];
    unfold bind, read_file, start; cbn [file writes stdout fst snd];
    repeat split; reflexivity.
Qed.

End Edits.

(** C10: each script either finds all its markers, and then writes the
    file exactly once, with the fully edited text, as its last action
    on the file; or it ends with status 1 (by [sys.exit(1)] or by an
    uncaught exception) without having opened the file for writing,
    the file being as it was. *)
Theorem C10_scripts_write_once_or_not_at_all :
  forall (new_retry_lines new_launch_block : list text) (new_with_fallback : text)
         (new_scan new_second_scope : list text) (name : ScriptName) (d : Disk),
    let r := run_script new_retry_lines new_launch_block new_with_fallback
               new_scan new_second_scope name (start d) in
    match d with
    | Unreadable _ => untouched d r
    | Holds content =>
        match edit new_retry_lines new_launch_block new_with_fallback
                new_scan new_second_scope name content with
        | Some content' => committed content' r
        | None => untouched d r
        end
    end.
Proof.
  intros nrl nlb nwf ns nss name d r. subst r.
  destruct d as [content|exception]; [|apply unreadable_untouched].
  destruct name; cbn [run_script edit].
  - apply fix_connection_manager_atomic.
  - apply fix_go_ip_v2_atomic.
  - apply fix_go_ip_v3_atomic.
Qed.

(** *** Sample runs *)

Definition sample_manager : text :=
  lit "    private const val CONNECT_RETRY_DELAY_MS = 2000L" ++ LF
  :: lit "        Log.w(TAG, cleaning up before retry...)" ++ LF
  :: lit "        manager.removeGroup(channel, object : ActionListener {" ++ LF
  :: lit "            override fun onFailure(c: Int) { // retrying anyway" ++ LF
  :: lit "                retryAction()" ++ LF
  :: lit "            }" ++ LF
  :: lit "        })" ++ LF
  :: lit "        done()".

Example fix_connection_manager_sample :
  let r := fix_connection_manager [lit "NEW"] (start (Holds sample_manager)) in
  fst r = inl tt /\ writes (snd r) = 1%nat
  /\ file (snd r)
     = Holds (lit "    private const val CONNECT_RETRY_DELAY_MS = 2000L" ++ LF
              :: lit "        private const val PEER_REDISCOVERY_DELAY_MS = 3500L" ++ LF
              :: lit "NEW" ++ LF
              :: lit "        done()").
Proof. vm_compute. repeat split; reflexivity. Qed.

(** Without the closing [})] within four lines of "retrying anyway"
    the script stops before writing. *)
Example fix_connection_manager_no_block_end :
  let d := Holds (lit "private const val CONNECT_RETRY_DELAY_MS = 2000L" ++ LF
                  :: lit "cleaning up before retry..." ++ LF
                  :: lit "retrying anyway") in
  let r := fix_connection_manager [lit "NEW"] (start d) in
  fst r = inr (SysExit 1) /\ file (snd r) = d /\ writes (snd r) = 0%nat.
Proof. vm_compute. repeat split; reflexivity. Qed.

(** fix_go_ip_v3.py does not test [first_scope_end]: with no block
    after the log line, [first_scope_end + 1] raises, and the run ends
    with a traceback before the write. *)
Example fix_go_ip_v3_unmatched_brace :
  let d := Holds (lit "Log.w(TAG, Group info null, retrying)") in
  let r := fix_go_ip_v3 [lit "NEW"] (start d) in
  fst r = inr (Uncaught (lit "TypeError"))
  /\ exit_status (fst r) = 1 /\ file (snd r) = d /\ writes (snd r) = 0%nat.
Proof. vm_compute. repeat split; reflexivity. Qed.

(** *** A marker that occurs nowhere *)

Lemma starts_with_app p s : starts_with p s = true <-> exists post, s = p ++ post.
Proof.
  revert s. induction p as [|x p IH]; intros s; cbn [starts_with].
  - split; [intros _; now exists s | reflexivity].
  - destruct s as [|y s].
    + split; [discriminate | intros (post & E); discriminate E].
    + rewrite andb_true_iff, N.eqb_eq, IH. split.
      * intros (-> & post & ->). now exists post.
      * intros (post & E). cbn [app] in E. inversion E. subst. eauto.
Qed.

(** [p in s] holds exactly when [s] has [p] as a substring. *)
Lemma contains_app p s :
  contains p s = true <-> exists pre post, s = pre ++ p ++ post.
Proof.
  induction s as [|y s IH].
  - cbn [contains]. rewrite orb_false_r, starts_with_app. split.
    + intros (post & E). now exists [], post.
    + intros (pre & post & E). symmetry in E.
      apply app_eq_nil in E. destruct E as [-> E].
      apply app_eq_nil in E. destruct E as [-> ->]. now exists [].
  - cbn [contains]. rewrite orb_true_iff, starts_with_app, IH. split.
    + intros [(post & E) | (pre & post & E)].
      * now exists [], post.
      * exists (y :: pre), post. cbn [app]. now rewrite E.
    + intros ([|z pre] & post & E).
      * left. now exists post.
      * right. cbn [app] in E. inversion E. subst. now exists pre, post.
Qed.

Lemma find_all_false {A} (f : A -> bool) l :
  (forall x, In x l -> f x = false) -> find f l = None.
Proof.
  induction l as [|a l IH]; intros H; [reflexivity|]. cbn [find].
  rewrite (H a (or_introl eq_refl)). apply IH. intros x Hx. apply H. now right.
Qed.

Lemma first_line_absent test ls :
  (forall l, In l ls -> test l = false) -> first_line test ls = None.
Proof.
  intros H. unfold first_line, first_in_range. apply find_all_false.
  intros i Hi. apply in_seq in Hi. apply H. apply nth_In. lia.
Qed.

Lemma find_scope_launch_absent i ls :
  (forall l, In l ls ->
             contains (lit "private fun resolveClientIpFromGroup(") l = false) ->
  find_scope_launch None i ls = None.
Proof.
  revert i. induction ls as [|line rest IH]; intros i H; [reflexivity|].
  cbn [find_scope_launch]. rewrite (H line (or_introl eq_refl)).
  apply IH. intros l Hl. apply H. now right.
Qed.

(** X15: when the first marker of a script occurs on no line of the file
    (line ends normalised), the run ends with status 1 and the file as
    it was. *)
Lemma first_marker_absent_untouched
    (new_retry_lines new_launch_block : list text) (new_with_fallback : text)
    (new_scan new_second_scope : list text) (name : ScriptName) (content : text) :
  let marker := match name with
                | FixConnectionManager => old_const
                | FixGoIpV2 => lit "private fun resolveClientIpFromGroup("
                | FixGoIpV3 => lit "Group info null, retrying"
                end in
  let text := match name with
              | FixConnectionManager =>
                  [replace old_interp new_interp (replace CRLF [LF] content)]
              | _ => split_lf (replace CRLF [LF] content)
              end in
  (forall l, In l text -> contains marker l = false) ->
  untouched (Holds content)
    (run_script new_retry_lines new_launch_block new_with_fallback new_scan
       new_second_scope name (start (Holds content))).
Proof.
  intros marker text H.
  pose proof (C := fun n => fix_connection_manager_atomic n content).
  pose proof (V2 := fun a b c => fix_go_ip_v2_atomic a b c content).
  pose proof (V3 := fun n => fix_go_ip_v3_atomic n content).
  destruct name; subst marker text; cbn [run_script].
  - specialize (C new_retry_lines). unfold edit_connection_manager in C.
    cbv zeta in C. rewrite (H _ (or_introl eq_refl)) in C. exact C.
  - specialize (V2 new_launch_block new_with_fallback new_scan).
    unfold edit_go_ip_v2 in V2. cbv zeta in V2.
    rewrite (find_scope_launch_absent _ _ H) in V2. exact V2.
  - specialize (V3 new_second_scope).
    unfold edit_go_ip_v3 in V3. cbv zeta in V3.
    rewrite (first_line_absent _ _ H) in V3. exact V3.
Qed.

(* ================================================================= *)
(** ** Further properties of the scripts' text operations *)
(* ================================================================= *)

(** *** Lines of a text *)

Definition lf_free (l : text) : bool := forallb (fun c => negb (c =? LF)%N) l.

Lemma split_lf_nonempty s : split_lf s <> [].
Proof.
  destruct s as [|c s]; cbn [split_lf]; [discriminate|].
  destruct (c =? LF)%N; [discriminate|].
  destruct (split_lf s); discriminate.
Qed.

Lemma join_lf_cons_char c l ls : join_lf ((c :: l) :: ls) = c :: join_lf (l :: ls).
Proof. destruct ls; reflexivity. Qed.

(** X1: [content.split('\n')] followed by ['\n'.join(lines)] gives the
    text back, for every text. *)
Theorem join_split_lf s : join_lf (split_lf s) = s.
Proof.
  induction s as [|c s IH]; [reflexivity|]. cbn [split_lf].
  destruct (N.eqb_spec c LF) as [->|Hc].
  - destruct (split_lf s) as [|l ls] eqn:E; [now apply split_lf_nonempty in E|].
    change (join_lf ([] :: l :: ls)) with (LF :: join_lf (l :: ls)).
    f_equal. exact IH.
  - destruct (split_lf s) as [|l ls] eqn:E; [now apply split_lf_nonempty in E|].
    rewrite join_lf_cons_char. f_equal. exact IH.
Qed.

Lemma split_lf_line l s :
  lf_free l = true -> split_lf (l ++ LF :: s) = l :: split_lf s.
Proof.
  induction l as [|c l IH]; intros H; [reflexivity|].
  cbn [lf_free forallb] in H. apply andb_prop in H. destruct H as [Hc Hl].
  apply negb_true_iff in Hc. cbn [app split_lf]. now rewrite Hc, (IH Hl).
Qed.

Lemma split_lf_single l : lf_free l = true -> split_lf l = [l].
Proof.
  induction l as [|c l IH]; intros H; [reflexivity|].
  cbn [lf_free forallb] in H. apply andb_prop in H. destruct H as [Hc Hl].
  apply negb_true_iff in Hc. cbn [split_lf]. now rewrite Hc, (IH Hl).
Qed.

Lemma split_lf_of_join ls :
  ls <> [] -> forallb lf_free ls = true -> split_lf (join_lf ls) = ls.
Proof.
  induction ls as [|l ls IH]; [contradiction|]. intros _ H.
  cbn [forallb] in H. apply andb_prop in H. destruct H as [Hl Hls].
  destruct ls as [|l2 ls].
  - cbn [join_lf]. now apply split_lf_single.
  - change (join_lf (l :: l2 :: ls)) with (l ++ LF :: join_lf (l2 :: ls)).
    rewrite (split_lf_line _ _ Hl). f_equal. apply IH; [discriminate | exact Hls].
Qed.



(** Every line [split('\n')] gives is free of line feeds. *)
Lemma split_lf_lines_lf_free s : forallb lf_free (split_lf s) = true.
Proof.
  induction s as [|c s IH]; [reflexivity|]. cbn [split_lf].
  destruct (c =? LF)%N eqn:Hc; [cbn [forallb lf_free]; exact IH|].
  destruct (split_lf s) as [|l ls]; cbn [forallb lf_free] in *; rewrite Hc;
    [reflexivity | exact IH].
Qed.

(** *** Replacing and counting *)

(** X3: a pattern that does not occur: [replace] and [replace(.., 1)]
    return the text as it is, and [count] is zero; conversely a zero
    count means the pattern does not occur. *)
Theorem absent_pattern old new s :
  old <> [] ->
  (contains old s = false ->
   replace old new s = s /\ replace1 old new s = s /\ count old s = 0%nat)
  /\ (count old s = 0%nat -> contains old s = false).
Proof.
  intros Hold. unfold replace, count. split.
  - induction s as [|c s IH]; intros H; [now repeat split|].
    cbn [contains] in H. apply orb_false_elim in H. destruct H as [Hs Hc].
    destruct (IH Hc) as (R & R1 & C).
    cbn [replace_from replace1 count_from]. rewrite Hs.
    repeat split; [f_equal; exact R | f_equal; exact R1 | exact C].
  - induction s as [|c s IH]; intros H.
    + cbn [contains]. rewrite orb_false_r.
      destruct old; [contradiction | reflexivity].
    + cbn [count_from] in H. cbn [contains].
      destruct (starts_with old (c :: s)); [discriminate H|].
      cbn [orb]. now apply IH.
Qed.

Lemma absent_pattern_witness :
  (replace old_interp new_interp (lit "val x = 1") = lit "val x = 1"
   /\ replace1 old_interp new_interp (lit "val x = 1") = lit "val x = 1"
   /\ count old_interp (lit "val x = 1") = 0%nat)
  /\ contains old_interp (lit "val y = 2") = false.
Proof.
  split.
  - apply (proj1 (absent_pattern old_interp new_interp (lit "val x = 1")
                    ltac:(discriminate))).
    vm_compute; reflexivity.
  - apply (proj2 (absent_pattern old_interp new_interp (lit "val y = 2")
                    ltac:(discriminate))).
    vm_compute; reflexivity.
Defined.

Lemma starts_with_length p s : starts_with p s = true -> (List.length p <= List.length s)%nat.
Proof.
  intros H. apply starts_with_app in H. destruct H as (post & ->).
  rewrite length_app. lia.
Qed.

Lemma replace_from_length old new k s :
  old <> [] -> (k <= List.length s)%nat ->
  (List.length (replace_from old new k s) + count_from old k s * List.length old + k
   = List.length s + count_from old k s * List.length new)%nat.
Proof.
  intros Hold. revert k. induction s as [|c s IH]; intros k Hk.
  - cbn in *. lia.
  - cbn [replace_from count_from]. destruct k as [|k].
    + destruct (starts_with old (c :: s)) eqn:E.
      * apply starts_with_length in E. cbn [List.length] in E.
        assert (Ho : (0 < List.length old)%nat).
        { destruct old; [contradiction | cbn; lia]. }
        specialize (IH (List.length old - 1)%nat ltac:(lia)).
        rewrite length_app. cbn [List.length]. lia.
      * specialize (IH 0%nat ltac:(lia)). cbn [List.length]. lia.
    + specialize (IH k ltac:(cbn [List.length] in Hk; lia)). cbn [List.length]. lia.
Qed.

(** X4: each replacement trades the length of the pattern for the length
    of its substitute: the length of [s.replace(old, new)] is that of
    [s] less [s.count(old)] times the difference. *)
Theorem replace_length old new s :
  old <> [] ->
  (List.length (replace old new s) + count old s * List.length old
   = List.length s + count old s * List.length new)%nat.
Proof.
  intros Hold. unfold replace, count.
  pose proof (replace_from_length old new 0 s Hold ltac:(lia)). lia.
Qed.

Lemma replace_length_witness :
  (List.length (replace old_interp new_interp (lit "a ${'$'}{b} ${'$'}{c}"))
   + count old_interp (lit "a ${'$'}{b} ${'$'}{c}") * List.length old_interp
   = List.length (lit "a ${'$'}{b} ${'$'}{c}")
     + count old_interp (lit "a ${'$'}{b} ${'$'}{c}") * List.length new_interp)%nat.
Proof.
  apply (replace_length old_interp new_interp (lit "a ${'$'}{b} ${'$'}{c}")).
  discriminate.
Defined.

(** X5: [s.replace(old, new, 1)] rewrites the leftmost occurrence of [old]
    and nothing else. *)
Theorem replace1_leftmost old new s :
  old <> [] -> contains old s = true ->
  exists pre post,
    s = pre ++ old ++ post
    /\ replace1 old new s = pre ++ new ++ post
    /\ forall k, (k < List.length pre)%nat -> starts_with old (skipn k s) = false.
Proof.
  intros Hold. induction s as [|c s IH]; intros H.
  - cbn [contains] in H. rewrite orb_false_r in H.
    destruct old; [contradiction | discriminate].
  - cbn [contains] in H. cbn [replace1].
    destruct (starts_with old (c :: s)) eqn:E.
    + apply starts_with_app in E. destruct E as (post & E).
      exists [], post. rewrite E. repeat split.
      * rewrite skipn_app, skipn_all, Nat.sub_diag. reflexivity.
      * intros k Hk. cbn in Hk. lia.
    + cbn [orb] in H. destruct (IH H) as (pre & post & Hs & Hr & Hleft).
      exists (c :: pre), post. repeat split.
      * cbn [app]. now rewrite Hs at 1.
      * cbn [app]. now rewrite Hr.
      * intros [|k] Hk; [exact E|]. cbn [skipn]. apply Hleft.
        cbn [List.length] in Hk. lia.
Qed.

Lemma replace1_leftmost_witness :
  exists pre post,
    lit "a = 1; b = 1" = pre ++ lit "= 1" ++ post
    /\ replace1 (lit "= 1") (lit "= 2") (lit "a = 1; b = 1") = pre ++ lit "= 2" ++ post
    /\ forall k, (k < List.length pre)%nat ->
                 starts_with (lit "= 1") (skipn k (lit "a = 1; b = 1")) = false.
Proof.
  apply (replace1_leftmost (lit "= 1") (lit "= 2") (lit "a = 1; b = 1")).
  - discriminate.
  - vm_compute; reflexivity.
Defined.

(** *** Searching the lines *)

Lemma find_seq_first (f : nat -> bool) lo n :
  match find f (seq lo n) with
  | Some i => (lo <= i < lo + n)%nat /\ f i = true
              /\ forall j, (lo <= j < i)%nat -> f j = false
  | None => forall j, (lo <= j < lo + n)%nat -> f j = false
  end.
Proof.
  revert lo. induction n as [|n IH]; intros lo; cbn [seq find].
  - intros j Hj. lia.
  - destruct (f lo) eqn:E.
    + split; [lia|]. split; [exact E|]. intros j Hj. lia.
    + specialize (IH (S lo)). destruct (find f (seq (S lo) n)) as [i|].
      * destruct IH as (Hi & Hf & Hfirst). split; [lia|]. split; [exact Hf|].
        intros j Hj. destruct (Nat.eq_dec j lo) as [->|]; [exact E|].
        apply Hfirst. lia.
      * intros j Hj. destruct (Nat.eq_dec j lo) as [->|]; [exact E|].
        apply IH. lia.
Qed.

Lemma first_in_range_hit test ls lo hi :
  match first_in_range test ls lo hi with
  | Some i => (lo <= i < hi)%nat /\ test (nth i ls []) = true
              /\ forall j, (lo <= j < i)%nat -> test (nth j ls []) = false
  | None => forall j, (lo <= j < hi)%nat -> test (nth j ls []) = false
  end.
Proof.
  unfold first_in_range.
  generalize (find_seq_first (fun i => test (nth i ls [])) lo (hi - lo)).
  destruct (find (fun i => test (nth i ls [])) (seq lo (hi - lo))) as [i|]; intros H.
  - destruct H as (Hi & Ht & Hf). repeat split; try lia; assumption.
  - intros j Hj. apply H. lia.
Qed.

(** X6: the loops that [break] at the first hit: the index returned lies
    in the range, its line passes the test and no earlier line of the
    range does; [None] means no line of the range passes. *)
Theorem first_in_range_first test ls lo hi :
  match first_in_range test ls lo hi with
  | Some i => (lo <= i < hi)%nat /\ test (nth i ls []) = true
              /\ forall j, (lo <= j < i)%nat -> test (nth j ls []) = false
  | None => forall j, (lo <= j < hi)%nat -> test (nth j ls []) = false
  end.
Proof.
  unfold first_in_range.
  generalize (find_seq_first (fun i => test (nth i ls [])) lo (hi - lo)).
  destruct (find (fun i => test (nth i ls [])) (seq lo (hi - lo))) as [i|]; intros H.
  - destruct H as (Hi & Ht & Hf). repeat split; try lia; assumption.
  - intros j Hj. apply H. lia.
Qed.

(** X7: the end of the retry block in fix_connection_manager.py: the
    closing line lies below the first "retrying anyway" line found
    within 30 lines of the start, at most 4 lines below it, so at most
    33 lines below the start; it is a line of the file and reads
    [})] once stripped. *)
Theorem retry_block_end_bounds ls start_idx end_idx :
  retry_block_end ls start_idx = Some end_idx ->
  exists i,
    (start_idx <= i < start_idx + 30)%nat
    /\ contains (lit "retrying anyway") (nth i ls []) = true
    /\ (forall j, (start_idx <= j < i)%nat ->
                  contains (lit "retrying anyway") (nth j ls []) = false)
    /\ (i < end_idx <= i + 4)%nat
    /\ (end_idx < List.length ls)%nat
    /\ strip (nth end_idx ls []) = lit "})"
    /\ (start_idx < end_idx <= start_idx + 33)%nat.
Proof.
  unfold retry_block_end. intros H.
  generalize (first_in_range_hit (contains (lit "retrying anyway")) ls start_idx
                (Nat.min (start_idx + 30) (List.length ls))).
  destruct (first_in_range (contains (lit "retrying anyway")) ls start_idx
              (Nat.min (start_idx + 30) (List.length ls))) as [i|]; [|discriminate].
  intros (Hi & Hc & Hfirst).
  pose proof (first_in_range_hit (fun l => text_eqb (strip l) (lit "})")) ls (i + 1)
                (Nat.min (i + 5) (List.length ls))) as H2.
  rewrite H in H2. destruct H2 as (He & Hs & _).
  exists i. repeat split; try lia; try assumption.
  now apply text_eqb_eq.
Qed.

Lemma retry_block_end_bounds_witness :
  exists i,
    (1 <= i < 1 + 30)%nat
    /\ contains (lit "retrying anyway") (nth i (split_lf sample_manager) []) = true
    /\ (forall j, (1 <= j < i)%nat ->
          contains (lit "retrying anyway") (nth j (split_lf sample_manager) []) = false)
    /\ (i < 6 <= i + 4)%nat
    /\ (6 < List.length (split_lf sample_manager))%nat
    /\ strip (nth 6 (split_lf sample_manager) []) = lit "})"
    /\ (1 < 6 <= 1 + 33)%nat.
Proof.
  apply (retry_block_end_bounds (split_lf sample_manager) 1 6).
  vm_compute; reflexivity.
Defined.

Lemma find_scope_launch_found rfs k ls i :
  find_scope_launch rfs k ls = Some i ->
  (k <= i < k + List.length ls)%nat
  /\ strip (nth (i - k) ls []) = lit "scope.launch {"
  /\ exists r, (r < i)%nat
               /\ (rfs = Some r
                   \/ ((k <= r)%nat
                       /\ contains (lit "private fun resolveClientIpFromGroup(")
                            (nth (r - k) ls []) = true)).
Proof.
  revert rfs k. induction ls as [|line rest IH]; intros rfs k H; [discriminate|].
  cbn [find_scope_launch] in H.
  destruct (contains (lit "private fun resolveClientIpFromGroup(") line) eqn:Em.
  - destruct (text_eqb (strip line) (lit "scope.launch {") && (k <? k)%nat) eqn:Et.
    + apply andb_prop in Et. destruct Et as [_ Et]. apply Nat.ltb_lt in Et. lia.
    + apply IH in H. destruct H as (Hi & Hs & r & Hr & Hwhere). cbn [List.length].
      split; [lia|]. split.
      * replace (i - k)%nat with (S (i - S k)) by lia. exact Hs.
      * exists r. split; [exact Hr|]. right.
        destruct Hwhere as [E | (Hk & Hc)].
        -- inversion E. subst r. rewrite Nat.sub_diag. split; [lia | exact Em].
        -- split; [lia|]. replace (r - k)%nat with (S (r - S k)) by lia. exact Hc.
  - destruct rfs as [r0|].
    + destruct (text_eqb (strip line) (lit "scope.launch {") && (r0 <? k)%nat) eqn:Et.
      * inversion H. subst i. apply andb_prop in Et. destruct Et as [Es Et].
        apply Nat.ltb_lt in Et. apply text_eqb_eq in Es. cbn [List.length].
        rewrite Nat.sub_diag. split; [lia|]. split; [exact Es|].
        exists r0. split; [exact Et | now left].
      * apply IH in H. destruct H as (Hi & Hs & r & Hr & Hwhere). cbn [List.length].
        split; [lia|]. split.
        -- replace (i - k)%nat with (S (i - S k)) by lia. exact Hs.
        -- exists r. split; [exact Hr|].
           destruct Hwhere as [E | (Hk & Hc)]; [now left | right].
           split; [lia|]. replace (r - k)%nat with (S (r - S k)) by lia. exact Hc.
    + apply IH in H. destruct H as (Hi & Hs & r & Hr & Hwhere). cbn [List.length].
      split; [lia|]. split.
      * replace (i - k)%nat with (S (i - S k)) by lia. exact Hs.
      * exists r. split; [exact Hr|].
        destruct Hwhere as [E | (Hk & Hc)]; [discriminate | right].
        split; [lia|]. replace (r - k)%nat with (S (r - S k)) by lia. exact Hc.
Qed.

(** X8: the first loop of fix_go_ip_v2.py: the line it settles on is a
    line of the file that reads [scope.launch {] once stripped, and
    some line above it opens resolveClientIpFromGroup. *)
Theorem find_scope_launch_below_function ls i :
  find_scope_launch None 0 ls = Some i ->
  (i < List.length ls)%nat
  /\ strip (nth i ls []) = lit "scope.launch {"
  /\ exists r, (r < i)%nat
               /\ contains (lit "private fun resolveClientIpFromGroup(")
                    (nth r ls []) = true.
Proof.
  intros H. apply find_scope_launch_found in H.
  destruct H as (Hi & Hs & r & Hr & Hwhere).
  rewrite Nat.sub_0_r in Hs. split; [lia|]. split; [exact Hs|].
  exists r. split; [exact Hr|].
  destruct Hwhere as [E | (_ & Hc)]; [discriminate|].
  now rewrite Nat.sub_0_r in Hc.
Qed.

Definition sample_resolver : list text :=
  [ lit "    scope.launch {";
    lit "    private fun resolveClientIpFromGroup(peer: String) {";
    lit "        manager.requestGroupInfo(channel) { group ->";
    lit "            scope.launch {";
    lit "                delay(1500)";
    lit "            }";
    lit "        }";
    lit "    }" ].

Lemma find_scope_launch_below_function_witness :
  (3 < List.length sample_resolver)%nat
  /\ strip (nth 3 sample_resolver []) = lit "scope.launch {"
  /\ exists r, (r < 3)%nat
               /\ contains (lit "private fun resolveClientIpFromGroup(")
                    (nth r sample_resolver []) = true.
Proof.
  apply (find_scope_launch_below_function sample_resolver 3).
  vm_compute; reflexivity.
Defined.

(** *** Brace matching *)

(** Opening braces less closing braces. *)
Fixpoint net (s : text) : Z :=
  match s with
  | [] => 0
  | ch :: rest =>
      (if (ch =? open_brace)%N then 1
       else if (ch =? close_brace)%N then -1 else 0) + net rest
  end.

Definition brace_free (s : text) : bool :=
  forallb (fun ch => negb (ch =? open_brace)%N && negb (ch =? close_brace)%N) s.

(** Text whose braces nest properly. *)
Inductive WellNested : text -> Prop :=
| wn_nil : WellNested []
| wn_char ch s :
    (ch =? open_brace)%N = false -> (ch =? close_brace)%N = false ->
    WellNested s -> WellNested (ch :: s)
| wn_block a b :
    WellNested a -> WellNested b ->
    WellNested (open_brace :: a ++ close_brace :: b).

Lemma net_app a b : net (a ++ b) = net a + net b.
Proof. induction a as [|ch a IH]; cbn [app net]; [reflexivity | rewrite IH; lia]. Qed.

Lemma braces_in_line_app d a b :
  braces_in_line d (a ++ b)
  = match braces_in_line d a with
    | inr u => inr u
    | inl d' => braces_in_line d' b
    end.
Proof.
  revert d. induction a as [|ch a IH]; intros d; [reflexivity|].
  cbn [app braces_in_line].
  destruct (ch =? open_brace)%N; [apply IH|].
  destruct (ch =? close_brace)%N; [|apply IH].
  destruct (d - 1 =? 0); [reflexivity | apply IH].
Qed.

Lemma braces_in_line_net d s d' : braces_in_line d s = inl d' -> d' = d + net s.
Proof.
  revert d. induction s as [|ch s IH]; intros d H; cbn [braces_in_line net] in *.
  - inversion H. lia.
  - destruct (ch =? open_brace)%N; [apply IH in H; lia|].
    destruct (ch =? close_brace)%N; [|apply IH in H; lia].
    destruct (d - 1 =? 0); [discriminate | apply IH in H; lia].
Qed.

Lemma braces_in_line_close d s :
  braces_in_line d s = inr tt ->
  exists pre post, s = pre ++ close_brace :: post /\ d + net pre = 1.
Proof.
  revert d. induction s as [|ch s IH]; intros d H; cbn [braces_in_line] in H;
    [discriminate|].
  destruct (N.eqb_spec ch open_brace) as [->|Ho].
  - destruct (IH _ H) as (pre & post & -> & Hn).
    exists (open_brace :: pre), post. split; [reflexivity|]. cbn [net].
    change ((open_brace =? open_brace)%N) with true. cbv iota. lia.
  - destruct (N.eqb_spec ch close_brace) as [->|Hc].
    + destruct (Z.eqb_spec (d - 1) 0) as [Hd|Hd].
      * exists [], s. split; [reflexivity|]. cbn [net]. lia.
      * destruct (IH _ H) as (pre & post & -> & Hn).
        exists (close_brace :: pre), post. split; [reflexivity|]. cbn [net].
        change ((close_brace =? open_brace)%N) with false.
        change ((close_brace =? close_brace)%N) with true. cbv iota. lia.
    + destruct (IH _ H) as (pre & post & -> & Hn).
      exists (ch :: pre), post. split; [reflexivity|]. cbn [net].
      apply N.eqb_neq in Ho. apply N.eqb_neq in Hc. rewrite Ho, Hc. lia.
Qed.

Lemma matching_brace_found d i ls e :
  matching_brace d i ls = Some e ->
  (i <= e < i + List.length ls)%nat
  /\ exists pre post,
       nth (e - i) ls [] = pre ++ close_brace :: post
       /\ d + net (List.concat (firstn (e - i) ls) ++ pre) = 1.
Proof.
  revert d i. induction ls as [|line rest IH]; intros d i H; [discriminate|].
  cbn [matching_brace] in H. destruct (braces_in_line d line) as [d'|[]] eqn:E.
  - apply IH in H. destruct H as (He & pre & post & Hn & Hnet).
    cbn [List.length]. split; [lia|].
    replace (e - i)%nat with (S (e - S i)) by lia.
    exists pre, post. cbn [nth firstn List.concat]. split; [exact Hn|].
    apply braces_in_line_net in E. rewrite <- app_assoc, net_app. lia.
  - inversion H. subst e. cbn [List.length]. split; [lia|].
    rewrite Nat.sub_diag. cbn [nth firstn List.concat app].
    destruct (braces_in_line_close _ _ E) as (pre & post & Hl & Hn). eauto.
Qed.

(** X9: the block found from a start line ends on a line of the file, not
    above the start, at a closing brace; from the start line up to and
    including that brace, opening and closing braces are equal in
    number. *)
Theorem block_end_balanced ls start e :
  block_end ls start = Some e ->
  (start <= e < List.length ls)%nat
  /\ exists pre post,
       nth e ls [] = pre ++ close_brace :: post
       /\ net (List.concat (firstn (e - start) (skipn start ls)) ++ pre ++ [close_brace]) = 0.
Proof.
  unfold block_end. intros H. apply matching_brace_found in H.
  destruct H as (He & pre & post & Hn & Hnet).
  rewrite length_skipn in He. split; [lia|].
  exists pre, post. rewrite nth_skipn in Hn.
  replace (start + (e - start))%nat with e in Hn by lia. split; [exact Hn|].
  rewrite app_assoc, net_app. cbn [net].
  change ((close_brace =? open_brace)%N) with false.
  change ((close_brace =? close_brace)%N) with true. cbv iota. lia.
Qed.

Lemma block_end_balanced_witness :
  (3 <= 5 < List.length sample_resolver)%nat
  /\ exists pre post,
       nth 5 sample_resolver [] = pre ++ close_brace :: post
       /\ net (List.concat (firstn (5 - 3) (skipn 3 sample_resolver))
               ++ pre ++ [close_brace]) = 0.
Proof.
  apply (block_end_balanced sample_resolver 3 5).
  vm_compute; reflexivity.
Defined.

Lemma brace_free_skip d s r :
  brace_free s = true -> braces_in_line d (s ++ r) = braces_in_line d r.
Proof.
  induction s as [|ch s IH]; intros H; [reflexivity|].
  cbn [brace_free forallb] in H. apply andb_prop in H. destruct H as [Hc Hs].
  apply andb_prop in Hc. destruct Hc as [Ho Hc].
  apply negb_true_iff in Ho. apply negb_true_iff in Hc.
  cbn [app braces_in_line]. rewrite Ho, Hc. now apply IH.
Qed.

Lemma well_nested_skip a :
  WellNested a ->
  forall d r, 1 <= d -> braces_in_line d (a ++ r) = braces_in_line d r.
Proof.
  induction 1 as [|ch s Ho Hc _ IH|a b _ IHa _ IHb]; intros d r Hd.
  - reflexivity.
  - cbn [app braces_in_line]. rewrite Ho, Hc. now apply IH.
  - cbn [app braces_in_line]. change ((open_brace =? open_brace)%N) with true.
    cbv iota. rewrite <- app_assoc, IHa by lia. cbn [app braces_in_line].
    change ((close_brace =? open_brace)%N) with false.
    change ((close_brace =? close_brace)%N) with true. cbv iota.
    replace (d + 1 - 1) with d by lia.
    destruct (Z.eqb_spec d 0); [lia|]. now apply IHb.
Qed.

Lemma well_nested_brace_free s : brace_free s = true -> WellNested s.
Proof.
  induction s as [|ch s IH]; intros H; [constructor|].
  cbn [brace_free forallb] in H. apply andb_prop in H. destruct H as [Hc Hs].
  apply andb_prop in Hc. destruct Hc as [Ho Hc].
  apply negb_true_iff in Ho. apply negb_true_iff in Hc.
  apply wn_char; auto.
Qed.

Lemma matching_brace_skip d d1 i l1 rest :
  braces_in_line d (List.concat l1) = inl d1 ->
  matching_brace d i (l1 ++ rest) = matching_brace d1 (i + List.length l1) rest.
Proof.
  revert d i. induction l1 as [|x l1 IH]; intros d i H.
  - cbn in H. inversion H. cbn [app List.length]. now rewrite Nat.add_0_r.
  - cbn [List.concat] in H. rewrite braces_in_line_app in H.
    cbn [app matching_brace List.length].
    destruct (braces_in_line d x) as [dx|u]; [|discriminate].
    rewrite (IH _ (S i) H). f_equal. lia.
Qed.

(** X10: on properly nested text the matcher finds the block that opens
    first: if, from the start line on, the text reads some brace-free
    text, an opening brace, a properly nested body and a closing brace
    on line [e], then [e] is the end found. *)
Theorem block_end_well_nested ls start e pre post pre0 body :
  (start <= e < List.length ls)%nat ->
  nth e ls [] = pre ++ close_brace :: post ->
  List.concat (firstn (e - start) (skipn start ls)) ++ pre
  = pre0 ++ open_brace :: body ->
  brace_free pre0 = true ->
  WellNested body ->
  block_end ls start = Some e.
Proof.
  intros He Hline Htext Hfree Hbody. unfold block_end.
  assert (Hlen : (e - start < List.length (skipn start ls))%nat)
    by (rewrite length_skipn; lia).
  destruct (nth_split (skipn start ls) [] Hlen) as (l1 & l2 & Hsplit0 & Hl1).
  rewrite nth_skipn in Hsplit0.
  replace (start + (e - start))%nat with e in Hsplit0 by lia.
  assert (Hsplit : skipn start ls = l1 ++ nth e ls [] :: l2) by exact Hsplit0.
  clear Hsplit0.
  assert (Hfirst : firstn (e - start) (skipn start ls) = l1).
  { rewrite Hsplit, <- Hl1, firstn_app, Nat.sub_diag, firstn_all.
    cbn [firstn]. now rewrite app_nil_r. }
  rewrite Hfirst in Htext.
  assert (Hrun : braces_in_line 0 (List.concat l1 ++ pre) = inl 1).
  { rewrite Htext, brace_free_skip by exact Hfree. cbn [braces_in_line].
    change ((open_brace =? open_brace)%N) with true. cbv iota.
    rewrite <- (app_nil_r body). rewrite (well_nested_skip body Hbody) by lia.
    reflexivity. }
  rewrite braces_in_line_app in Hrun.
  destruct (braces_in_line 0 (List.concat l1)) as [d1|u] eqn:E1; [|discriminate].
  unfold text in *. rewrite Hsplit, (matching_brace_skip 0 d1 start l1 _ E1).
  cbn [matching_brace]. rewrite Hline, braces_in_line_app, Hrun.
  cbn [braces_in_line].
  change ((close_brace =? open_brace)%N) with false.
  change ((close_brace =? close_brace)%N) with true. cbv iota.
  change (1 - 1 =? 0) with true. cbv iota. f_equal. lia.
Qed.

Lemma well_nested_app a b : brace_free a = true -> WellNested b -> WellNested (a ++ b).
Proof.
  induction a as [|ch a IH]; intros Ha Hb; [exact Hb|].
  cbn [brace_free forallb] in Ha. apply andb_prop in Ha. destruct Ha as [Hc Ha].
  apply andb_prop in Hc. destruct Hc as [Ho Hc].
  apply negb_true_iff in Ho. apply negb_true_iff in Hc.
  cbn [app]. apply wn_char; auto.
Qed.

Lemma block_end_well_nested_witness : block_end sample_resolver 2 = Some 6%nat.
Proof.
  apply (block_end_well_nested sample_resolver 2 6
           (lit "        ") [] (lit "        manager.requestGroupInfo(channel) ")
           (lit " group ->            scope.launch "
            ++ open_brace :: lit "                delay(1500)            "
            ++ close_brace :: lit "        ")).
  - vm_compute. lia.
  - reflexivity.
  - vm_compute; reflexivity.
  - vm_compute; reflexivity.
  - apply well_nested_app; [vm_compute; reflexivity|].
    apply wn_block; apply well_nested_brace_free; vm_compute; reflexivity.
Defined.

(** [found_first_brace] never changes the outcome: the depth can only
    return to zero at a closing brace after an opening one. *)
Lemma braces_in_line'_same d f line :
  (f = false -> d <= 0) ->
  match braces_in_line' (d, f) line, braces_in_line d line with
  | inl (d', f'), inl d2 => d' = d2 /\ (f' = false -> d' <= 0)
  | inr _, inr _ => True
  | _, _ => False
  end.
Proof.
  revert d f. induction line as [|ch line IH]; intros d f Hinv.
  - cbn. auto.
  - cbn [braces_in_line' braces_in_line].
    destruct (ch =? open_brace)%N; [apply IH; discriminate|].
    destruct (ch =? close_brace)%N; [|now apply IH].
    destruct f.
    + cbn [andb]. destruct (d - 1 =? 0); [exact I | apply IH; discriminate].
    + cbn [andb]. specialize (Hinv eq_refl).
      destruct (Z.eqb_spec (d - 1) 0); [lia|]. apply IH. intros _. lia.
Qed.

Lemma matching_brace'_same d f i ls :
  (f = false -> d <= 0) -> matching_brace' (d, f) i ls = matching_brace d i ls.
Proof.
  revert d f i. induction ls as [|line rest IH]; intros d f i Hinv; [reflexivity|].
  cbn [matching_brace' matching_brace].
  pose proof (braces_in_line'_same d f line Hinv) as H.
  destruct (braces_in_line' (d, f) line) as [[d' f']|u];
    destruct (braces_in_line d line) as [d2|u2]; try contradiction.
  - destruct H as [-> Hinv']. now apply IH.
  - reflexivity.
Qed.

(** X11: the scan for the end of discoverP2pClientIp in fix_go_ip_v2.py,
    with its [found_first_brace] flag, finds what the plain matcher of
    the other loops finds. *)
Theorem function_end_is_block_end ls start : function_end ls start = block_end ls start.
Proof.
  unfold function_end, block_end. apply matching_brace'_same. intros _. lia.
Qed.

(** *** What a run prints last *)

Ltac case_lookup :=
  match goal with
  | |- context [contains ?a ?b] => destruct (contains a b)
  | |- context [first_line ?a ?b] => destruct (first_line a b)
  | |- context [retry_block_end ?a ?b] => destruct (retry_block_end a b)
  | |- context [find_scope_launch ?a ?b ?c] => destruct (find_scope_launch a b c)
  | |- context [block_end ?a ?b] => destruct (block_end a b)
  | |- context [function_end ?a ?b] => destruct (function_end a b)
  | |- context [first_in_range ?a ?b ?c ?d] => destruct (first_in_range a b c d)
  end.

Ltac script_outcomes :=
  unfold bind, read_file, print, write_file, sys_exit, raise, plus_one, Patch.ret, start;
  cbv zeta; cbn [file writes stdout fst snd];
  repeat (case_lookup; cbn [file writes stdout fst snd]).

(** X12: a run that ends by [sys.exit] ends with code 1 and has just
    printed a line beginning "ERROR: Could not find"; a run that
    reaches its end has printed "... applied successfully!" last.
    Of a run that ends by an exception nothing is stated. *)
Theorem runs_announce_their_end :
  forall (new_retry_lines new_launch_block : list text) (new_with_fallback : text)
         (new_scan new_second_scope : list text) (name : ScriptName) (d : Disk),
    let r := run_script new_retry_lines new_launch_block new_with_fallback
               new_scan new_second_scope name (start d) in
    match fst r with
    | inl _ =>
        contains (lit "applied successfully!") (last (stdout (snd r)) []) = true
    | inr (SysExit code) =>
        code = 1
        /\ starts_with (lit "ERROR: Could not find") (last (stdout (snd r)) []) = true
    | inr (Uncaught _) => True
    end.
Proof.
  intros nrl nlb nwf ns nss name d r. subst r.
  set (announced := contains (lit "applied successfully!")).
  destruct d as [content|exception].
  - destruct name; cbn [run_script];
      [unfold fix_connection_manager | unfold fix_go_ip_v2 | unfold fix_go_ip_v3];
      script_outcomes; subst announced;
      first [ exact I
            | split; [reflexivity | vm_compute; reflexivity]
            | vm_compute; reflexivity ].
  - destruct name; cbn [run_script];
      [unfold fix_connection_manager | unfold fix_go_ip_v2 | unfold fix_go_ip_v3];
      script_outcomes; exact I.
Qed.

(** *** Lines around an assigned slice *)

Lemma forallb_firstn_skipn {A} (f : A -> bool) n l :
  forallb f l = true ->
  forallb f (firstn n l) = true /\ forallb f (skipn n l) = true.
Proof.
  intros H. rewrite <- (firstn_skipn n l), forallb_app in H.
  now apply andb_prop in H.
Qed.

(** X13: After [lines[a:b] = new] and a join and a fresh split, as the
    scripts do between their steps, the lines above the slice are
    where they were, the new lines follow, and the lines from [b] on
    come after them. *)
Theorem resplit_after_assign ls a b new :
  (a <= b <= List.length ls)%nat ->
  new <> [] ->
  forallb lf_free ls = true ->
  forallb lf_free new = true ->
  let out := split_lf (join_lf (assign_slice ls a b new)) in
  out = firstn a ls ++ new ++ skipn b ls
  /\ (List.length out + (b - a) = List.length ls + List.length new)%nat
  /\ (forall i, (i < a)%nat -> nth i out [] = nth i ls [])
  /\ (forall j, (j < List.length new)%nat -> nth (a + j) out [] = nth j new [])
  /\ (forall k, nth (a + List.length new + k) out [] = nth (b + k) ls []).
Proof.
  intros Hab Hnew Hls Hn out.
  assert (Hassign : assign_slice ls a b new = firstn a ls ++ new ++ skipn b ls).
  { unfold assign_slice. now rewrite Nat.max_r by lia. }
  assert (Hout : out = firstn a ls ++ new ++ skipn b ls).
  { subst out. rewrite Hassign. apply split_lf_of_join.
    - destruct new; [contradiction|]. destruct (firstn a ls); discriminate.
    - rewrite !forallb_app, Hn.
      destruct (forallb_firstn_skipn lf_free a ls Hls) as [Hf _].
      destruct (forallb_firstn_skipn lf_free b ls Hls) as [_ Hs].
      now rewrite Hf, Hs. }
  assert (Hfa : List.length (firstn a ls) = a) by (rewrite length_firstn; lia).
  split; [exact Hout|]. rewrite Hout. repeat split.
  - rewrite !length_app, Hfa, length_skipn. lia.
  - intros i Hi. rewrite app_nth1 by lia.
    rewrite <- (firstn_skipn a ls) at 2. now rewrite app_nth1 by lia.
  - intros j Hj. rewrite app_nth2 by lia. rewrite Hfa.
    replace (a + j - a)%nat with j by lia. now rewrite app_nth1 by lia.
  - intros k. rewrite app_nth2 by lia. rewrite Hfa.
    rewrite app_nth2 by lia.
    replace (a + List.length new + k - a - List.length new)%nat with k by lia.
    now rewrite nth_skipn.
Qed.

Lemma resplit_after_assign_witness :
  split_lf (join_lf (assign_slice sample_resolver 3 6 new_first_scope))
  = firstn 3 sample_resolver ++ new_first_scope ++ skipn 6 sample_resolver.
Proof.
  apply (resplit_after_assign sample_resolver 3 6 new_first_scope).
  - vm_compute. lia.
  - discriminate.
  - vm_compute; reflexivity.
  - vm_compute; reflexivity.
Defined.

(* ================================================================= *)
(** ** Further properties of the installed Kotlin blocks *)
(* ================================================================= *)

(** *** The subnet scan *)

Lemma find_app {A} (f : A -> bool) a b :
  find f (a ++ b) = match find f a with Some x => Some x | None => find f b end.
Proof.
  induction a as [|x a IH]; [reflexivity|]. cbn [app find].
  destruct (f x); [reflexivity | exact IH].
Qed.

Lemma find_flat_map_miss {A B} (f : B -> bool) (g : A -> list B) l :
  (forall x, In x l -> filter f (g x) = []) -> find f (flat_map g l) = None.
Proof.
  induction l as [|x l IH]; intros H; [reflexivity|].
  cbn [flat_map]. rewrite find_app, (find_none_filter _ _ (H x (or_introl eq_refl))).
  apply IH. intros y Hy. apply H. now right.
Qed.

Lemma scan_result_lowest isReachable starts :
  starts <> [] ->
  scan_result isReachable starts
  = find (answers isReachable) (flat_map hosts_of starts).
Proof.
  intros Hne. unfold scan_result.
  destruct (visited_cases isReachable starts)
    as [[Hv Hall] | (pre & b & post & h & tl & -> & Hv & Hpre & Hb & Hh)].
  - rewrite (find_flat_map_miss _ _ _ Hall). apply find_none_filter.
    apply Hall. rewrite Hv. destruct starts as [|x xs]; [contradiction|].
    apply (@exists_last _ (x :: xs)) in Hne. destruct Hne as (l' & a & E).
    rewrite E, last_last. apply in_or_app. right. now left.
  - rewrite Hv, last_last, Hh, flat_map_app, find_app.
    rewrite (find_flat_map_miss _ _ _ Hpre). cbn [flat_map].
    now rewrite find_app, Hh.
Qed.

Lemma scan_lowest {dispatcher : Dispatcher} isReachable :
  fst (run (discoverP2pClientIp isReachable))
  = option_map candidateIp (find (answers isReachable) (range 2 254)).
Proof.
  unfold run. rewrite discoverP2pClientIp_run. cbn [fst].
  rewrite scan_result_lowest by (vm_compute; discriminate).
  replace (flat_map hosts_of scan_starts) with (range 2 254)
    by (vm_compute; reflexivity).
  reflexivity.
Qed.







(** A probe that throws counts as a host that does not answer. *)
Definition caught (isReachable : text -> Z -> option bool) : text -> Z -> option bool :=
  fun ip timeoutMs =>
    match isReachable ip timeoutMs with
    | Some b => Some b
    | None => Some false
    end.

Lemma answers_caught isReachable i :
  answers (caught isReachable) i = answers isReachable i.
Proof.
  unfold answers, caught.
  now destruct (isReachable (candidateIp i) 500) as [[|]|].
Qed.

Lemma filter_ext_eq {A} (f g : A -> bool) l :
  (forall x, f x = g x) -> filter f l = filter g l.
Proof.
  intros H. induction l as [|a l IH]; [reflexivity|]. cbn [filter].
  now rewrite H, IH.
Qed.

Lemma probe_all_caught {dispatcher : Dispatcher} isReachable addrs s :
  probe_all (caught isReachable) addrs s = probe_all isReachable addrs s.
Proof.
  rewrite !probe_all_run. f_equal. f_equal.
  apply filter_ext_eq. apply answers_caught.
Qed.

Lemma scan_batches_caught {dispatcher : Dispatcher} isReachable starts s :
  scan_batches (caught isReachable) starts s = scan_batches isReachable starts s.
Proof.
  revert s. induction starts as [|b rest IH]; intros s; [reflexivity|].
  cbn [scan_batches]. unfold Kotlin.bind at 1 3. rewrite probe_all_caught.
  destruct (probe_all isReachable (range b (batchEnd b)) s) as [[|first results] s'];
    [apply IH | reflexivity].
Qed.

(** X18: exceptions of [getByName] and [isReachable] never leave the scan:
    a network on which probes throw is scanned exactly as the network
    on which those hosts are silent, with the same result and the
    same probes and log lines. *)
Theorem scan_treats_throwing_probe_as_silent :
  forall (dispatcher : Dispatcher) (isReachable : text -> Z -> option bool),
    run (discoverP2pClientIp isReachable)
    = run (discoverP2pClientIp (caught isReachable)).
Proof.
  intros dispatcher isReachable. unfold run, discoverP2pClientIp, Kotlin.bind.
  destruct (emit (Log LogD (lit "Starting parallel subnet scan (192.168.49.2-254)..."))
              init) as [u s].
  now rewrite scan_batches_caught.
Qed.

(** *** The resolver block *)

(** X19: every run of the resolver block ends in exactly one callback:
    [onConnected] with the address the stages produced and no
    teardown, or the teardown and [onFailure]; it never launches a
    retry. *)
Theorem resolve_block_calls_back_once :
  forall (dispatcher : Dispatcher) (arp_file : nat -> ReadResult)
         (resolveIpFromArp : text -> option text)
         (isReachable : text -> Z -> option bool) (DHCP_SETTLE_DELAY_MS : Z)
         (deviceAddress : text) (removeGroupResult : ActionResult),
    let resolved := fst (run (resolve_stages arp_file resolveIpFromArp isReachable
                                DHCP_SETTLE_DELAY_MS deviceAddress)) in
    let t := snd (run (resolve_block arp_file resolveIpFromArp isReachable
                         DHCP_SETTLE_DELAY_MS deviceAddress removeGroupResult)) in
    (List.length (connections t) + List.length (failures t) = 1)%nat
    /\ connections t = match resolved with Some ip => [ip] | None => [] end
    /\ filter is_remove_group t
       = match resolved with Some _ => [] | None => [RemoveGroup] end
    /\ launches t = [].
Proof.
  intros dispatcher arp_file resolveIpFromArp isReachable DHCP mac r resolved t.
  destruct (stages_quiet arp_file resolveIpFromArp isReachable DHCP mac)
    as (F & C & R & L).
  destruct resolved as [ip|] eqn:E; subst resolved t.
  - rewrite (block_trace_resolved _ _ _ _ _ r ip E).
    unfold connections, failures, launches.
    rewrite !flat_map_app, filter_app.
    fold (connections (snd (run (resolve_stages arp_file resolveIpFromArp
                                   isReachable DHCP mac)))).
    fold (failures (snd (run (resolve_stages arp_file resolveIpFromArp
                                isReachable DHCP mac)))).
    fold (launches (snd (run (resolve_stages arp_file resolveIpFromArp
                                isReachable DHCP mac)))).
    rewrite F, C, R, L. repeat split; reflexivity.
  - rewrite (block_trace_unresolved _ _ _ _ _ r E).
    unfold connections, failures, launches.
    rewrite !flat_map_app, filter_app.
    fold (connections (snd (run (resolve_stages arp_file resolveIpFromArp
                                   isReachable DHCP mac)))).
    fold (failures (snd (run (resolve_stages arp_file resolveIpFromArp
                                isReachable DHCP mac)))).
    fold (launches (snd (run (resolve_stages arp_file resolveIpFromArp
                                isReachable DHCP mac)))).
    rewrite F, C, R, L. repeat split; reflexivity.
Qed.

(** *** Tokens of the ARP file *)

Definition space_free (p : text) : bool :=
  forallb (fun c => negb (is_regex_space c)) p.

Lemma split_ws_from_pieces in_run s :
  split_ws_from in_run s <> []
  /\ forallb space_free (split_ws_from in_run s) = true.
Proof.
  revert in_run. induction s as [|c s IH]; intros in_run.
  - split; [discriminate | reflexivity].
  - cbn [split_ws_from]. destruct (is_regex_space c) eqn:E.
    + destruct in_run.
      * apply IH.
      * destruct (IH true) as [_ H]. split; [discriminate|].
        cbn [forallb space_free]. exact H.
    + destruct (IH false) as [Hne H].
      destruct (split_ws_from false s) as [|p ps]; [contradiction|].
      split; [discriminate|]. cbn [forallb space_free] in *.
      now rewrite E.
Qed.

(** X20: [split("\\s+".toRegex())] always yields a first piece, so the
    [?: continue] of the lookup loop is never taken; no piece holds a
    whitespace character of the regex. *)
Theorem split_ws_always_has_first_piece s :
  exists ip ps, split_ws s = ip :: ps
                /\ forallb space_free (ip :: ps) = true.
Proof.
  unfold split_ws. destruct (split_ws_from_pieces false s) as [Hne H].
  destruct (split_ws_from false s) as [|ip ps]; [contradiction|]. eauto.
Qed.

Lemma lines_pieces s : lines s <> [] /\ forallb no_break (lines s) = true.
Proof.
  assert (G : forall n s, (List.length s <= n)%nat ->
                          lines s <> [] /\ forallb no_break (lines s) = true).
  { induction n as [|n IH]; intros s0 Hn.
    - destruct s0; [|cbn in Hn; lia]. split; [discriminate | reflexivity].
    - destruct s0 as [|c s0]; [split; [discriminate | reflexivity]|].
      cbn [List.length] in Hn. cbn [lines].
      destruct (c =? CR)%N eqn:Ecr.
      + destruct s0 as [|d s0].
        * split; [discriminate | reflexivity].
        * destruct (d =? LF)%N.
          -- destruct (IH s0 ltac:(cbn [List.length] in Hn; lia)) as [_ H].
             split; [discriminate|]. cbn [forallb no_break]. exact H.
          -- destruct (IH (d :: s0) ltac:(lia)) as [_ H].
             split; [discriminate|]. cbn [forallb no_break]. exact H.
      + destruct (c =? LF)%N eqn:Elf.
        * destruct (IH s0 ltac:(lia)) as [_ H].
          split; [discriminate|]. cbn [forallb no_break]. exact H.
        * destruct (IH s0 ltac:(lia)) as [Hne H].
          destruct (lines s0) as [|l ls]; [contradiction|].
          split; [discriminate|]. cbn [forallb no_break] in *.
          now rewrite Elf, Ecr. }
  apply (G (List.length s)). lia.
Qed.

(** X21: [lines()] leaves no carriage return and no line feed in any
    line, and yields at least one line. *)
Theorem lines_hold_no_break s :
  lines s <> [] /\ forall l, In l (lines s) -> no_break l = true.
Proof.
  destruct (lines_pieces s) as [Hne H]. split; [exact Hne|].
  now apply forallb_forall.
Qed.

(** *** The address a resolution reports *)

Lemma starts_with_self_app p x : starts_with p (p ++ x) = true.
Proof. apply starts_with_app. now exists x. Qed.

Lemma candidateIp_in_subnet h :
  2 <= h <= 254 ->
  starts_with subnet_prefix (candidateIp h) = true
  /\ candidateIp h <> own_address.
Proof.
  intros H.
  assert (A : forallb (fun h => starts_with subnet_prefix (candidateIp h)
                                && negb (text_eqb (candidateIp h) own_address))
                (range 2 254) = true) by (vm_compute; reflexivity).
  rewrite forallb_forall in A. specialize (A h (proj2 (in_range 2 254 h) H)).
  apply andb_prop in A. destruct A as [A1 A2]. split; [exact A1|].
  intros E. rewrite E, text_eqb_refl in A2. discriminate.
Qed.

Lemma passes_sound ip :
  passes ip = true -> starts_with subnet_prefix ip = true /\ ip <> own_address.
Proof.
  unfold passes. intros H. apply andb_prop in H. destruct H as [H1 H2].
  split; [exact H1|]. intros E. rewrite E, text_eqb_refl in H2. discriminate.
Qed.

Lemma arp_answer_sound arp_file n ip :
  arp_answer arp_file n = Some ip ->
  starts_with subnet_prefix ip = true /\ ip <> own_address.
Proof.
  unfold arp_answer. destruct (arp_file n) as [tbl|msg]; [|discriminate].
  rewrite first_p2p_client_find. intros H. apply find_some in H.
  apply passes_sound. apply H.
Qed.

Lemma scan_outcome_sound {dispatcher : Dispatcher} isReachable ip :
  fst (run (discoverP2pClientIp isReachable)) = Some ip ->
  starts_with subnet_prefix ip = true /\ ip <> own_address.
Proof.
  rewrite scan_lowest.
  destruct (find (answers isReachable) (range 2 254)) as [h|] eqn:E; [|discriminate].
  cbn [option_map]. intros H. inversion H. subst ip.
  apply find_some in E. destruct E as [Hin _].
  apply candidateIp_in_subnet. now apply in_range.
Qed.

(** X22: whatever a resolution reports, it is either the answer of the
    MAC-based lookup as it came, or an address that starts with
    "192.168.49." and is not the group owner's own "192.168.49.1". *)
Theorem resolved_address_is_a_client :
  forall (dispatcher : Dispatcher) (arp_file : nat -> ReadResult)
         (resolveIpFromArp : text -> option text)
         (isReachable : text -> Z -> option bool) (DHCP_SETTLE_DELAY_MS : Z)
         (deviceAddress ip : text),
    fst (run (resolve_stages arp_file resolveIpFromArp isReachable
                DHCP_SETTLE_DELAY_MS deviceAddress)) = Some ip ->
    resolveIpFromArp deviceAddress = Some ip
    \/ (starts_with subnet_prefix ip = true /\ ip <> own_address).
Proof.
  intros dispatcher arp_file resolveIpFromArp isReachable DHCP mac ip H.
  destruct (resolve_stages_runs arp_file resolveIpFromArp isReachable DHCP mac 0)
    as (n' & Hruns).
  apply runs_run in Hruns. destruct Hruns as [Hr _]. rewrite Hr in H. clear Hr.
  cbn [earliest precedence outcome] in H.
  destruct (resolveIpFromArp mac) as [a|] eqn:Emac; [left; exact H|]. right.
  destruct (arp_answer arp_file 0) as [a|] eqn:E0;
    [inversion H; subst; exact (arp_answer_sound _ _ _ E0)|].
  destruct (arp_answer arp_file (1 + 0)) as [a|] eqn:E1;
    [inversion H; subst; exact (arp_answer_sound _ _ _ E1)|].
  destruct (arp_answer arp_file (2 + 0)) as [a|] eqn:E2;
    [inversion H; subst; exact (arp_answer_sound _ _ _ E2)|].
  destruct (arp_answer arp_file (3 + 0)) as [a|] eqn:E3;
    [inversion H; subst; exact (arp_answer_sound _ _ _ E3)|].
  destruct (fst (run (discoverP2pClientIp isReachable))) as [a|] eqn:Es;
    [|discriminate].
  inversion H. subst. exact (scan_outcome_sound _ _ Es).
Qed.

Lemma resolved_address_is_a_client_witness :
  no_mac peer = Some (lit "192.168.49.12")
  \/ (starts_with subnet_prefix (lit "192.168.49.12") = true
      /\ lit "192.168.49.12" <> own_address).
Proof.
  apply (resolved_address_is_a_client descending moving_arp no_mac no_host 1500 peer
           (lit "192.168.49.12")).
  vm_compute; reflexivity.
Defined.

(** *** How much a resolution reads and waits *)

(** The reads of /proc/net/arp made by [resolveAnyP2pClientFromArp],
    one for each call of it.  What [resolveIpFromArp], whose body is
    not part of the scripts, reads is not counted: its calls are
    listed by [mac_lookups]. *)
Definition mac_free_reads (t : list Event) : nat :=
  List.length (filter (fun e => match e with ReadArp => true | _ => false end) t).

(** The calls of the MAC-based lookup [resolveIpFromArp], by argument. *)
Definition mac_lookups (t : list Event) : list text :=
  flat_map (fun e => match e with ResolveIpFromArp mac => [mac] | _ => [] end) t.

Lemma flat_map_effects {B} (g : Event -> list B) t :
  (forall lvl msg, g (Log lvl msg) = []) ->
  flat_map g (effects t) = flat_map g t.
Proof.
  intros Hg. induction t as [|e t IH]; [reflexivity|].
  unfold effects in *. cbn [filter flat_map].
  destruct e; cbn [is_log negb flat_map]; rewrite ?Hg, IH; reflexivity.
Qed.

Lemma mac_free_reads_effects t : mac_free_reads (effects t) = mac_free_reads t.
Proof.
  unfold mac_free_reads. induction t as [|e t IH]; [reflexivity|].
  unfold effects in *. cbn [filter].
  destruct e; cbn [is_log negb filter List.length]; rewrite IH; reflexivity.
Qed.

Lemma scan_trace_quiet {dispatcher : Dispatcher} isReachable :
  delays (scan_trace isReachable) = [] /\ mac_free_reads (scan_trace isReachable) = 0%nat.
Proof.
  unfold scan_trace, delays, mac_free_reads. cbn [flat_map filter app].
  rewrite flat_map_app, filter_app, length_app.
  assert (Hd : forall l, flat_map (fun e => match e with Delay ms => [ms] | _ => [] end)
                           (map probe_event l) = []).
  { induction l as [|i l IH]; [reflexivity | exact IH]. }
  assert (Hr : forall l, filter (fun e => match e with ReadArp => true | _ => false end)
                           (map probe_event l) = []).
  { induction l as [|i l IH]; [reflexivity | exact IH]. }
  rewrite Hd, Hr. unfold scan_last_log.
  destruct (scan_result isReachable scan_starts); split; reflexivity.
Qed.

Lemma scan_effects_quiet {dispatcher : Dispatcher} isReachable :
  delays (effects (snd (run (discoverP2pClientIp isReachable)))) = []
  /\ mac_free_reads (effects (snd (run (discoverP2pClientIp isReachable)))) = 0%nat.
Proof.
  unfold run. rewrite discoverP2pClientIp_run. cbn [snd trace init app].
  unfold delays. rewrite flat_map_effects by reflexivity. rewrite mac_free_reads_effects.
  apply scan_trace_quiet.
Qed.

Lemma probes_effects t : probes (effects t) = probes t.
Proof. unfold probes. now apply flat_map_effects. Qed.

Lemma mac_lookups_effects t : mac_lookups (effects t) = mac_lookups t.
Proof. unfold mac_lookups. now apply flat_map_effects. Qed.

Lemma scan_effects_no_lookup {dispatcher : Dispatcher} isReachable :
  mac_lookups (effects (snd (run (discoverP2pClientIp isReachable)))) = [].
Proof.
  unfold run. rewrite discoverP2pClientIp_run. cbn [snd trace init app].
  rewrite mac_lookups_effects. unfold scan_trace, mac_lookups.
  cbn [flat_map app]. rewrite flat_map_app.
  assert (Hl : forall l, flat_map (fun e => match e with
                                            | ResolveIpFromArp mac => [mac]
                                            | _ => []
                                            end) (map probe_event l) = []).
  { induction l as [|i l IH]; [reflexivity | exact IH]. }
  rewrite Hl. unfold scan_last_log.
  destruct (scan_result isReachable scan_starts); reflexivity.
Qed.

(** X23: one resolution waits the DHCP delay and then at most three times
    2000 ms; it calls the MAC-based lookup [resolveIpFromArp] once,
    for the device address, and the MAC-free lookup
    [resolveAnyP2pClientFromArp], which reads /proc/net/arp once per
    call, at most four times; it probes the subnet only after all
    four MAC-free lookups and all three waits. *)
Theorem resolution_reads_and_waits_are_bounded :
  forall (dispatcher : Dispatcher) (arp_file : nat -> ReadResult)
         (resolveIpFromArp : text -> option text)
         (isReachable : text -> Z -> option bool) (DHCP_SETTLE_DELAY_MS : Z)
         (deviceAddress : text),
    let t := snd (run (resolve_stages arp_file resolveIpFromArp isReachable
                         DHCP_SETTLE_DELAY_MS deviceAddress)) in
    mac_lookups t = [deviceAddress]
    /\ exists k : nat,
         (k <= 3)%nat
         /\ delays t = DHCP_SETTLE_DELAY_MS :: repeat 2000 k
         /\ (mac_free_reads t <= k + 1)%nat
         /\ (probes t <> [] -> k = 3%nat /\ mac_free_reads t = 4%nat).
Proof.
  intros dispatcher arp_file resolveIpFromArp isReachable DHCP mac t.
  destruct (resolve_stages_runs arp_file resolveIpFromArp isReachable DHCP mac 0)
    as (n' & Hruns).
  apply runs_run in Hruns. destruct Hruns as [_ He]. fold t in He.
  assert (Hd : delays t = delays (effects t))
    by (unfold delays; now rewrite flat_map_effects).
  rewrite Hd, <- (mac_free_reads_effects t), <- (probes_effects t),
    <- (mac_lookups_effects t), He. clear Hd He.
  destruct (scan_effects_quiet isReachable) as [Sd Sr].
  pose proof (scan_effects_no_lookup isReachable) as Sl.
  cbn [earliest precedence outcome].
  destruct (resolveIpFromArp mac);
    [split; [reflexivity|]; exists 0%nat; cbn; repeat split;
     first [reflexivity | lia | congruence]|].
  destruct (arp_answer arp_file 0);
    [split; [reflexivity|]; exists 0%nat; cbn; repeat split;
     first [reflexivity | lia | congruence]|].
  destruct (arp_answer arp_file (1 + 0));
    [split; [reflexivity|]; exists 1%nat; cbn; repeat split;
     first [reflexivity | lia | congruence]|].
  destruct (arp_answer arp_file (2 + 0));
    [split; [reflexivity|]; exists 2%nat; cbn; repeat split;
     first [reflexivity | lia | congruence]|].
  destruct (arp_answer arp_file (3 + 0));
    [split; [reflexivity|]; exists 3%nat; cbn; repeat split;
     first [reflexivity | lia | congruence]|].
  assert (G : forall (r : option text) (ex : list Stage),
            ex = [SubnetScan] ->
            delays (Delay DHCP :: flat_map (stage_effects isReachable mac)
                      (MacArp :: MacFreeArp :: ArpRetry 1 :: ArpRetry 2 :: ArpRetry 3 :: ex))
            = DHCP :: repeat 2000 3
            /\ mac_free_reads (Delay DHCP :: flat_map (stage_effects isReachable mac)
                      (MacArp :: MacFreeArp :: ArpRetry 1 :: ArpRetry 2 :: ArpRetry 3 :: ex))
               = 4%nat
            /\ mac_lookups (Delay DHCP :: flat_map (stage_effects isReachable mac)
                      (MacArp :: MacFreeArp :: ArpRetry 1 :: ArpRetry 2 :: ArpRetry 3 :: ex))
               = [mac]).
  { intros _ ex ->. cbn [flat_map stage_effects app]. rewrite app_nil_r.
    unfold delays in *. unfold mac_free_reads in *. unfold mac_lookups in *.
    cbn [flat_map filter app List.length].
    rewrite Sd, Sr, Sl. repeat split; reflexivity. }
  destruct (fst (run (discoverP2pClientIp isReachable))); cbn [fst snd];
    destruct (G None [SubnetScan] eq_refl) as (Gd & Gr & Gl);
    (split; [exact Gl|]); exists 3%nat;
    rewrite Gd, Gr; repeat split; try lia.
Qed.

(** *** Whitespace around a line *)

Lemma drop_while_all f w x :
  forallb f w = true -> drop_while f (w ++ x) = drop_while f x.
Proof.
  induction w as [|c w IH]; intros H; [reflexivity|].
  cbn [forallb] in H. apply andb_prop in H. destruct H as [Hc Hw].
  cbn [app drop_while]. rewrite Hc. now apply IH.
Qed.

Lemma drop_while_app_keep f a b :
  drop_while f a <> [] -> drop_while f (a ++ b) = drop_while f a ++ b.
Proof.
  induction a as [|c a IH]; intros H; [contradiction|].
  cbn [app drop_while] in *. destruct (f c); [now apply IH | reflexivity].
Qed.

Lemma drop_while_nil f a : drop_while f a = [] -> forallb f a = true.
Proof.
  induction a as [|c a IH]; intros H; [reflexivity|].
  cbn [drop_while forallb] in *. destruct (f c); [now apply IH | discriminate].
Qed.

Lemma forallb_rev_true {A} (f : A -> bool) l :
  forallb f l = true -> forallb f (rev l) = true.
Proof.
  rewrite !forallb_forall. intros H x Hx. apply H. now apply in_rev.
Qed.

Lemma drop_while_outer f w1 s w2 :
  forallb f w1 = true -> forallb f w2 = true ->
  rev (drop_while f (rev (drop_while f (w1 ++ s ++ w2))))
  = rev (drop_while f (rev (drop_while f s))).
Proof.
  intros H1 H2. rewrite (drop_while_all f w1 _ H1).
  destruct (drop_while f s) as [|c d] eqn:E.
  - apply drop_while_nil in E.
    rewrite (drop_while_all f s _ E).
    rewrite <- (app_nil_r w2), (drop_while_all f w2 _ H2). reflexivity.
  - rewrite drop_while_app_keep by (rewrite E; discriminate).
    rewrite E, rev_app_distr. f_equal. apply drop_while_all.
    now apply forallb_rev_true.
Qed.

(** X24: whitespace before and after a line of the ARP file changes
    neither the trimmed line nor the token the lookup tests. *)
Theorem lookup_ignores_outer_whitespace w1 line w2 :
  forallb isWhitespace w1 = true ->
  forallb isWhitespace w2 = true ->
  trim (w1 ++ line ++ w2) = trim line
  /\ first_token (w1 ++ line ++ w2) = first_token line.
Proof.
  intros H1 H2.
  assert (E : trim (w1 ++ line ++ w2) = trim line)
    by (unfold trim; now apply drop_while_outer).
  split; [exact E|]. unfold first_token. now rewrite E.
Qed.

Lemma lookup_ignores_outer_whitespace_witness :
  trim (lit "  " ++ lit "192.168.49.12  0x1" ++ [9%N; 32%N])
  = trim (lit "192.168.49.12  0x1")
  /\ first_token (lit "  " ++ lit "192.168.49.12  0x1" ++ [9%N; 32%N])
     = first_token (lit "192.168.49.12  0x1").
Proof.
  apply (lookup_ignores_outer_whitespace (lit "  ") (lit "192.168.49.12  0x1")
           [9%N; 32%N]).
  - reflexivity.
  - reflexivity.
Defined.

Lemma lstrip_drop_while s : lstrip s = drop_while isspace s.
Proof.
  induction s as [|c s IH]; [reflexivity|]. cbn [lstrip drop_while].
  now rewrite IH.
Qed.

(** X14: indentation and trailing blanks never matter to the scripts'
    tests on a stripped line ([== '})'], [== 'scope.launch {']). *)
Theorem strip_ignores_indentation w1 line w2 :
  forallb isspace w1 = true ->
  forallb isspace w2 = true ->
  strip (w1 ++ line ++ w2) = strip line.
Proof.
  intros H1 H2. unfold strip. rewrite !lstrip_drop_while.
  now apply drop_while_outer.
Qed.

Lemma strip_ignores_indentation_witness :
  strip (lit "            " ++ lit "scope.launch {" ++ [32%N; 13%N])
  = strip (lit "scope.launch {").
Proof.
  apply (strip_ignores_indentation (lit "            ") (lit "scope.launch {")
           [32%N; 13%N]).
  - reflexivity.
  - reflexivity.
Defined.

Lemma first_marker_absent_untouched_witness :
  untouched (Holds (lit "class ConnectionManager"))
    (run_script [lit "NEW"] [lit "NEW"] (lit "NEW") [lit "NEW"] [lit "NEW"]
       FixGoIpV3 (start (Holds (lit "class ConnectionManager")))).
Proof.
  apply (first_marker_absent_untouched [lit "NEW"] [lit "NEW"] (lit "NEW")
           [lit "NEW"] [lit "NEW"] FixGoIpV3 (lit "class ConnectionManager")).
  intros l [<-|[]]. vm_compute; reflexivity.
Defined.
